(** * The API access layer of the inventory application

    A shallow embedding of

    - [backend/src/config/index.ts]: the CORS header object [corsOption];
    - the response helpers [successResponse] and [errorResponse];
    - [frontend/src/services/api.ts]: the axios instance [api], its request
      and response interceptors, and [itemService].

    The helpers call [JSON.stringify]; the envelope contract speaks about
    reading the body back, so the file starts with a model of the JavaScript
    values that reach the serializer and of [JSON.stringify] / [JSON.parse]
    over them. *)

From Stdlib Require Import ZArith NArith Ascii String List Lia.
From stdpp Require Import base option list gmap strings.

Local Open Scope Z_scope.

(** ** JavaScript values and JSON *)

Module JS.

(** Strings are sequences of code units; the model keeps the code units
    below 256, one [ascii] each. *)
Definition chars := list ascii.

(** Numbers are IEEE 754 doubles: the two zeros, the finite numbers
    [± m × 2^e] in the one form [canonical] allows (53 bits, exponents
    from -1074 to 971, the small mantissas only at the least exponent),
    NaN and the two infinities. *)
Inductive number :=
| Zero (neg : bool)
| Binary (neg : bool) (m e : Z)
| NaN
| PosInfinity
| NegInfinity.

Definition canonical (m e : Z) : bool :=
  (0 <? m) && (m <? 2 ^ 53) && (-1074 <=? e) && (e <=? 971)
  && ((2 ^ 52 <=? m) || (e =? -1074)).

Definition valid_number (n : number) : bool :=
  match n with
  | Binary _ m e => canonical m e
  | _ => true
  end.

Definition number_eqb (x y : number) : bool :=
  match x, y with
  | Zero a, Zero b => Bool.eqb a b
  | Binary a m e, Binary b m' e' => Bool.eqb a b && (m =? m') && (e =? e')
  | NaN, NaN => true
  | PosInfinity, PosInfinity => true
  | NegInfinity, NegInfinity => true
  | _, _ => false
  end.

(** The numbers JSON has: finite, and not the negative zero. *)
Definition json_number (x : number) : bool :=
  match x with
  | Zero neg => negb neg
  | Binary _ _ _ => true
  | _ => false
  end.

Definition infinity (neg : bool) : number := if neg then NegInfinity else PosInfinity.

(** The Number value of the positive rational [a / b]: the nearest
    double, the even one of two equally near, and infinity from
    [2^1024 - 2^970] on. The exponent is found from the bit lengths of [a]
    and [b], then the quotient is rounded once. *)
Definition round_ratio (neg : bool) (a b : Z) : number :=
  let e1 := Z.max (Z.log2 a - Z.log2 b - 53) (-1074) in
  let q1 := (a * 2 ^ Z.max 0 (- e1)) / (b * 2 ^ Z.max 0 e1) in
  let e := if 2 ^ 53 <=? q1 then e1 + 1 else e1 in
  let num := a * 2 ^ Z.max 0 (- e) in
  let den := b * 2 ^ Z.max 0 e in
  let q := num / den in
  let r := num mod den in
  let m := if 2 * r <? den then q
           else if den <? 2 * r then q + 1
           else if Z.even q then q else q + 1 in
  if m =? 0 then Zero neg
  else
    let m' := if m =? 2 ^ 53 then 2 ^ 52 else m in
    let e' := if m =? 2 ^ 53 then e + 1 else e in
    if 971 <? e' then infinity neg else Binary neg m' e'.

(** [a / b = m × 2^e], written without fractions. *)
Definition is_ratio (a b m e : Z) : Prop :=
  a * 2 ^ Z.max 0 (- e) = m * b * 2 ^ Z.max 0 e.

(** *** Decimal digits *)

Definition is_digit (c : ascii) : bool :=
  ((48 <=? N_of_ascii c) && (N_of_ascii c <=? 57))%N.

Definition digit_char (d : Z) : ascii := ascii_of_N (Z.to_N (48 + d)).

Definition digit_value (c : ascii) : Z := Z.of_N (N_of_ascii c) - 48.

Definition digits_value (ds : chars) : Z :=
  fold_left (fun acc c => 10 * acc + digit_value c) ds 0.

Fixpoint digits_fuel (fuel : nat) (n : Z) : chars :=
  match fuel with
  | O => []
  | S fuel' =>
      if n <? 10 then [digit_char n]
      else digits_fuel fuel' (n / 10) ++ [digit_char (n mod 10)]
  end.

(** The decimal digits of a natural number; it has no more of them than
    bits. *)
Definition digits_of (n : Z) : chars :=
  digits_fuel (S (Z.to_nat (Z.log2 n))) n.

Fixpoint drop_zeros (ds : chars) : chars :=
  match ds with
  | c :: r => if Ascii.eqb c "0" then drop_zeros r else ds
  | [] => []
  end.

(** A decimal is a string of digits and a power of ten: [ds × 10^e]. Its
    canonical form has no zero at either end. *)
Definition canon (ds : chars) (e : Z) : chars * Z :=
  let d1 := drop_zeros ds in
  let d2 := rev (drop_zeros (rev d1)) in
  (d2, e + Z.of_nat (length d1 - length d2)).

Definition is_canonical (ds : chars) : bool :=
  forallb is_digit ds
  && match ds with c :: _ => negb (Ascii.eqb c "0") | [] => false end
  && match rev ds with c :: _ => negb (Ascii.eqb c "0") | [] => false end.

(** The Number value of a decimal (what a numeric literal denotes). *)
Definition number_of_decimal (neg : bool) (ds : chars) (e : Z) : number :=
  let '(dc, ec) := canon ds e in
  match dc with
  | [] => Zero neg
  | _ => round_ratio neg (digits_value dc * 10 ^ Z.max 0 ec) (10 ^ Z.max 0 (- ec))
  end.

(** The Number value of an integer. *)
Definition Finite (z : Z) : number :=
  number_of_decimal (z <? 0) (digits_of (Z.abs z)) 0.

(** *** Number::toString

    For a finite number the language takes the digits [s], their count [k]
    and the exponent [n] such that [s × 10^(n-k)] has the number as its
    Number value, with [k] as small as possible and, among such, [s]
    nearest to the number. *)

Definition reads_as (x : number) (neg : bool) (d : chars * Z) : bool :=
  is_canonical d.1 && number_eqb (number_of_decimal neg d.1 d.2) x.

Definition below_pow10 (a b n : Z) : bool :=
  a * 10 ^ Z.max 0 (- n) <? b * 10 ^ Z.max 0 n.

(** The least [n] with [a / b < 10^n], looked for around the estimate the
    bit lengths give. *)
Definition magnitude (a b : Z) : Z :=
  let est := (Z.log2 a - Z.log2 b) * 30103 / 100000 in
  default (est + 3)
    (find (below_pow10 a b) [est - 1; est; est + 1; est + 2; est + 3]).

(** The decimal of [k] digits for [m × 2^e], if there is one: of the two
    decimals around the number, the ones that have it as their Number
    value, and of two such the nearer. *)
Definition candidate (neg : bool) (m e n0 k : Z) : option (chars * Z) :=
  let a := m * 2 ^ Z.max 0 e in
  let b := 2 ^ Z.max 0 (- e) in
  let p := n0 - k in
  let num := a * 10 ^ Z.max 0 (- p) in
  let den := b * 10 ^ Z.max 0 p in
  let q := num / den in
  let r := num mod den in
  let lo := canon (digits_of q) p in
  let hi := canon (digits_of (q + 1)) p in
  let ok_lo := reads_as (Binary neg m e) neg lo in
  let ok_hi := reads_as (Binary neg m e) neg hi in
  if ok_lo && ok_hi then
    Some (if 2 * r <? den then lo
          else if den <? 2 * r then hi
          else if Z.even q then lo else hi)
  else if ok_lo then Some lo
  else if ok_hi then Some hi
  else None.

(** The decimal that is the number exactly. *)
Definition exact_decimal (m e : Z) : chars * Z :=
  if 0 <=? e then canon (digits_of (m * 2 ^ e)) 0
  else canon (digits_of (m * 5 ^ (- e))) e.

Fixpoint first_candidate (f : Z → option (chars * Z)) (ks : list Z) : option (chars * Z) :=
  match ks with
  | [] => None
  | k :: ks' =>
      match f k with
      | Some d => Some d
      | None => first_candidate f ks'
      end
  end.

(** The shortest decimal: seventeen digits are looked through, which is
    as many as a double ever takes; past them stands the exact decimal. *)
Definition shortest (neg : bool) (m e : Z) : chars * Z :=
  let n0 := magnitude (m * 2 ^ Z.max 0 e) (2 ^ Z.max 0 (- e)) in
  default (exact_decimal m e)
    (first_candidate (candidate neg m e n0)
       [1; 2; 3; 4; 5; 6; 7; 8; 9; 10; 11; 12; 13; 14; 15; 16; 17]).

Definition zeros (j : Z) : chars := repeat "0"%char (Z.to_nat j).

Definition exponent_chars (x : Z) : chars :=
  (if x <? 0 then "-"%char else "+"%char) :: digits_of (Z.abs x).

(** The four layouts: digits and zeros, a point inside the digits, a
    point before them, and the exponent form. *)
Definition format_decimal (ds : chars) (pc : Z) : chars :=
  let k := Z.of_nat (length ds) in
  let n := pc + k in
  if (k <=? n) && (n <=? 21) then ds ++ zeros (n - k)
  else if (0 <? n) && (n <=? 21) then
    take (Z.to_nat n) ds ++ "."%char :: drop (Z.to_nat n) ds
  else if (-6 <? n) && (n <=? 0) then
    "0"%char :: "."%char :: zeros (- n) ++ ds
  else
    match ds with
    | [] => []
    | [d] => d :: "e"%char :: exponent_chars (n - 1)
    | d :: rest => d :: "."%char :: rest ++ "e"%char :: exponent_chars (n - 1)
    end.

Definition number_to_chars (x : number) : chars :=
  match x with
  | Zero _ => ["0"%char]
  | Binary neg m e =>
      (if neg then ["-"%char] else [])
        ++ (let '(ds, pc) := shortest neg m e in format_decimal ds pc)
  | NaN => list_ascii_of_string "NaN"
  | PosInfinity => list_ascii_of_string "Infinity"
  | NegInfinity => list_ascii_of_string "-Infinity"
  end.

(** *** The number of the JSON grammar: a sign, an integer part without
    a leading zero, a fraction, an exponent. *)

Fixpoint read_digits (s : chars) : chars * chars :=
  match s with
  | c :: r =>
      if is_digit c then let '(ds, r') := read_digits r in (c :: ds, r')
      else ([], s)
  | [] => ([], [])
  end.

Definition stops_digits (rest : chars) : Prop :=
  match rest with
  | c :: _ => is_digit c = false
  | [] => True
  end.

Definition parse_exponent (s : chars) : option (Z * chars) :=
  let '(neg, s1) :=
    match s with
    | c :: r =>
        if Ascii.eqb c "-" then (true, r)
        else if Ascii.eqb c "+" then (false, r)
        else (false, s)
    | [] => (false, s)
    end in
  let '(ds, r) := read_digits s1 in
  match ds with
  | [] => None
  | _ => Some ((if neg then - digits_value ds else digits_value ds), r)
  end.

Definition parse_fraction (s : chars) : option (chars * chars) :=
  match s with
  | c :: r =>
      if Ascii.eqb c "." then
        let '(fp, r') := read_digits r in
        match fp with
        | [] => None
        | _ => Some (fp, r')
        end
      else Some ([], s)
  | [] => Some ([], s)
  end.

Definition parse_exponent_part (s : chars) : option (Z * chars) :=
  match s with
  | c :: r =>
      if Ascii.eqb c "e" || Ascii.eqb c "E" then parse_exponent r
      else Some (0, s)
  | [] => Some (0, s)
  end.

Definition leading_zero (ds : chars) : bool :=
  match ds with
  | c :: _ :: _ => Ascii.eqb c "0"
  | _ => false
  end.

Definition parse_unsigned (neg : bool) (s : chars) : option (number * chars) :=
  let '(ip, r1) := read_digits s in
  match ip with
  | [] => None
  | _ =>
      if leading_zero ip then None
      else
        match parse_fraction r1 with
        | None => None
        | Some (fp, r2) =>
            match parse_exponent_part r2 with
            | None => None
            | Some (x, r3) =>
                Some (number_of_decimal neg (ip ++ fp) (x - Z.of_nat (length fp)), r3)
            end
        end
  end.

Definition parse_number (s : chars) : option (number * chars) :=
  match s with
  | c :: r => if Ascii.eqb c "-" then parse_unsigned true r else parse_unsigned false s
  | [] => None
  end.

(** The values a handler can hand to [JSON.stringify]. An object is the
    list of its own enumerable string-keyed properties; keys are unique
    (see [wf]). *)
Unset Elimination Schemes.
Inductive value :=
| VUndefined
| VNull
| VBool (b : bool)
| VNum (n : number)
| VStr (s : string)
| VArr (xs : list value)
| VObj (ps : list (string * value)).
Set Elimination Schemes.

Fixpoint nodup_keys (ks : list string) : bool :=
  match ks with
  | [] => true
  | k :: ks' => negb (existsb (String.eqb k) ks') && nodup_keys ks'
  end.

(** Data invariant of the model, true of every value of the language: a
    finite number is a double in its one form, and an object has no two
    properties of the same name. What [JSON.parse] returns has it
    ([JSON_parse_wf]). *)
Fixpoint wf (v : value) : bool :=
  match v with
  | VNum n => valid_number n
  | VArr xs => forallb wf xs
  | VObj ps => nodup_keys (map fst ps) && forallb (fun p => wf (snd p)) ps
  | _ => true
  end.

(** Values that JSON represents as they are: no [undefined] anywhere, no
    number that is not finite, and no negative zero. *)
Fixpoint json_value (v : value) : bool :=
  match v with
  | VUndefined => false
  | VNum n => json_number n
  | VArr xs => forallb json_value xs
  | VObj ps => forallb (fun p => json_value (snd p)) ps
  | _ => true
  end.

(** [o[name]]: the value of an own property, [undefined] when there is
    none or [o] is not an object. *)
Definition property (name : string) (o : value) : value :=
  match o with
  | VObj ps =>
      match find (fun p => String.eqb name (fst p)) ps with
      | Some p => snd p
      | None => VUndefined
      end
  | _ => VUndefined
  end.

(** *** QuoteJSONString *)

Definition hex_digit (n : N) : ascii :=
  (if n <? 10 then ascii_of_N (48 + n) else ascii_of_N (87 + n))%N.

Definition quote_char (c : ascii) : chars :=
  if Ascii.eqb c "034" then ["\"; "034"]%char
  else if Ascii.eqb c "\" then ["\"; "\"]%char
  else if Ascii.eqb c "008" then ["\"; "b"]%char
  else if Ascii.eqb c "012" then ["\"; "f"]%char
  else if Ascii.eqb c "010" then ["\"; "n"]%char
  else if Ascii.eqb c "013" then ["\"; "r"]%char
  else if Ascii.eqb c "009" then ["\"; "t"]%char
  else if (N_of_ascii c <? 32)%N then
    ["\"; "u"; "0"; "0"]%char
      ++ [hex_digit (N_of_ascii c / 16); hex_digit (N_of_ascii c mod 16)]
  else [c].

Definition quote_string (s : string) : chars :=
  "034"%char :: flat_map quote_char (list_ascii_of_string s) ++ ["034"%char].

(** *** JSON.stringify *)

Fixpoint join_comma (parts : list chars) : chars :=
  match parts with
  | [] => []
  | [p] => p
  | p :: rest => p ++ ","%char :: join_comma rest
  end.

Definition null_text : chars := list_ascii_of_string "null".

(** SerializeJSONProperty: [None] is the [undefined] result. An array
    writes [null] for an element without a serialization, an object leaves
    such a property out. A finite number is written by Number::toString,
    any other as [null]. *)
Fixpoint serialize (v : value) : option chars :=
  match v with
  | VUndefined => None
  | VNull => Some null_text
  | VBool true => Some (list_ascii_of_string "true")
  | VBool false => Some (list_ascii_of_string "false")
  | VNum n =>
      Some match n with
           | Zero _ | Binary _ _ _ => number_to_chars n
           | _ => null_text
           end
  | VStr s => Some (quote_string s)
  | VArr xs =>
      Some ("["%char
              :: join_comma (map (fun x => default null_text (serialize x)) xs)
              ++ ["]"%char])
  | VObj ps =>
      Some ("{"%char
              :: join_comma
                   (flat_map
                      (fun p =>
                         match serialize (snd p) with
                         | Some t => [quote_string (fst p) ++ ":"%char :: t]
                         | None => []
                         end) ps)
              ++ ["}"%char])
  end.

(** [JSON.stringify(v)]: a string, or [undefined] ([None]). *)
Definition JSON_stringify (v : value) : option string :=
  string_of_list_ascii <$> serialize v.

(** *** JSON.parse

    The reader follows the JSON grammar: insignificant white space, the
    three literals, strings with their escapes, numbers, arrays and
    objects. A result [None] is a [SyntaxError]; it also stands for a
    text with an escape past code unit 255, which the strings of the model
    do not have. *)

Definition is_ws (c : ascii) : bool :=
  Ascii.eqb c " " || Ascii.eqb c "009" || Ascii.eqb c "010" || Ascii.eqb c "013".

Fixpoint skip_ws (s : chars) : chars :=
  match s with
  | c :: r => if is_ws c then skip_ws r else s
  | [] => []
  end.

Fixpoint strip_prefix (p s : chars) : option chars :=
  match p, s with
  | [], _ => Some s
  | a :: p', b :: s' => if Ascii.eqb a b then strip_prefix p' s' else None
  | _ :: _, [] => None
  end.

Definition hex_value (c : ascii) : option N :=
  let n := N_of_ascii c in
  (if (48 <=? n) && (n <=? 57) then Some (n - 48)
   else if (97 <=? n) && (n <=? 102) then Some (n - 87)
   else if (65 <=? n) && (n <=? 70) then Some (n - 55)
   else None)%N.

Definition unicode_escape (h1 h2 h3 h4 : ascii) : option ascii :=
  a ← hex_value h1; b ← hex_value h2; c ← hex_value h3; d ← hex_value h4;
  (if (a =? 0) && (b =? 0) then Some (ascii_of_N (16 * c + d)) else None)%N.

Definition simple_escape (c : ascii) : option ascii :=
  if Ascii.eqb c "034" then Some "034"%char
  else if Ascii.eqb c "\" then Some "\"%char
  else if Ascii.eqb c "/" then Some "/"%char
  else if Ascii.eqb c "b" then Some "008"%char
  else if Ascii.eqb c "f" then Some "012"%char
  else if Ascii.eqb c "n" then Some "010"%char
  else if Ascii.eqb c "r" then Some "013"%char
  else if Ascii.eqb c "t" then Some "009"%char
  else None.

Definition cons_fst {A B} (a : A) (r : option (list A * B)) : option (list A * B) :=
  match r with
  | Some (l, b) => Some (a :: l, b)
  | None => None
  end.

(** The characters of a string, read after its opening quote up to and
    including the closing one. *)
Fixpoint parse_string_chars (s : chars) : option (chars * chars) :=
  match s with
  | [] => None
  | c :: r =>
      if Ascii.eqb c "034" then Some ([], r)
      else if Ascii.eqb c "\" then
        match r with
        | [] => None
        | e :: r1 =>
            if Ascii.eqb e "u" then
              match r1 with
              | h1 :: h2 :: h3 :: h4 :: r2 =>
                  match unicode_escape h1 h2 h3 h4 with
                  | Some x => cons_fst x (parse_string_chars r2)
                  | None => None
                  end
              | _ => None
              end
            else
              match simple_escape e with
              | Some x => cons_fst x (parse_string_chars r1)
              | None => None
              end
        end
      else if (N_of_ascii c <? 32)%N then None
      else cons_fst c (parse_string_chars r)
  end.

Definition parse_string (s : chars) : option (string * chars) :=
  match parse_string_chars s with
  | Some (cs, r) => Some (string_of_list_ascii cs, r)
  | None => None
  end.

(** CreateDataProperty on the property list: a name that is already there
    keeps its place and takes the new value. *)
Fixpoint set_property (k : string) (v : value) (ps : list (string * value))
  : list (string * value) :=
  match ps with
  | [] => [(k, v)]
  | (k', v') :: ps' =>
      if String.eqb k k' then (k', v) :: ps' else (k', v') :: set_property k v ps'
  end.

Definition build_object (ms : list (string * value)) : list (string * value) :=
  fold_left (fun o m => set_property (fst m) (snd m) o) ms [].

Fixpoint parse_value (fuel : nat) (s : chars) {struct fuel} : option (value * chars) :=
  match fuel with
  | O => None
  | S fuel' =>
      match skip_ws s with
      | [] => None
      | c :: r =>
          if Ascii.eqb c "n" then
            match strip_prefix (list_ascii_of_string "ull") r with
            | Some r' => Some (VNull, r')
            | None => None
            end
          else if Ascii.eqb c "t" then
            match strip_prefix (list_ascii_of_string "rue") r with
            | Some r' => Some (VBool true, r')
            | None => None
            end
          else if Ascii.eqb c "f" then
            match strip_prefix (list_ascii_of_string "alse") r with
            | Some r' => Some (VBool false, r')
            | None => None
            end
          else if Ascii.eqb c "034" then
            match parse_string r with
            | Some (str, r') => Some (VStr str, r')
            | None => None
            end
          else if Ascii.eqb c "[" then
            match skip_ws r with
            | c' :: r' =>
                if Ascii.eqb c' "]" then Some (VArr [], r')
                else
                  match parse_elements fuel' r with
                  | Some (vs, r'') => Some (VArr vs, r'')
                  | None => None
                  end
            | [] => None
            end
          else if Ascii.eqb c "{" then
            match skip_ws r with
            | c' :: r' =>
                if Ascii.eqb c' "}" then Some (VObj [], r')
                else
                  match parse_members fuel' r with
                  | Some (ms, r'') => Some (VObj (build_object ms), r'')
                  | None => None
                  end
            | [] => None
            end
          else
            match parse_number (c :: r) with
            | Some (x, r') => Some (VNum x, r')
            | None => None
            end
      end
  end
with parse_elements (fuel : nat) (s : chars) {struct fuel} : option (list value * chars) :=
  match fuel with
  | O => None
  | S fuel' =>
      match parse_value fuel' s with
      | Some (v, r) =>
          match skip_ws r with
          | c :: r' =>
              if Ascii.eqb c "," then cons_fst v (parse_elements fuel' r')
              else if Ascii.eqb c "]" then Some ([v], r')
              else None
          | [] => None
          end
      | None => None
      end
  end
with parse_members (fuel : nat) (s : chars) {struct fuel}
  : option (list (string * value) * chars) :=
  match fuel with
  | O => None
  | S fuel' =>
      match skip_ws s with
      | c :: r =>
          if Ascii.eqb c "034" then
            match parse_string r with
            | Some (k, r1) =>
                match skip_ws r1 with
                | c1 :: r2 =>
                    if Ascii.eqb c1 ":" then
                      match parse_value fuel' r2 with
                      | Some (v, r3) =>
                          match skip_ws r3 with
                          | c3 :: r4 =>
                              if Ascii.eqb c3 "," then
                                cons_fst (k, v) (parse_members fuel' r4)
                              else if Ascii.eqb c3 "}" then Some ([(k, v)], r4)
                              else None
                          | [] => None
                          end
                      | None => None
                      end
                    else None
                | [] => None
                end
            | None => None
            end
          else None
      | [] => None
      end
  end.

(** [JSON.parse(text)]: the whole text is one value, white space around
    it allowed. The readers run on fuel; the length of the text is enough
    of it for every text [JSON.stringify] writes ([size_le_length]). *)
Definition JSON_parse (text : string) : option value :=
  let s := list_ascii_of_string text in
  match parse_value (S (length s)) s with
  | Some (v, r) =>
      match skip_ws r with
      | [] => Some v
      | _ :: _ => None
      end
  | None => None
  end.

(** *** Notions the proofs about the two functions use *)

Section value_induction.
Variable P : value → Prop.
Hypothesis Hundefined : P VUndefined.
Hypothesis Hnull : P VNull.
Hypothesis Hbool : ∀ b, P (VBool b).
Hypothesis Hnum : ∀ n, P (VNum n).
Hypothesis Hstr : ∀ s, P (VStr s).
Hypothesis Harr : ∀ xs, Forall P xs → P (VArr xs).
Hypothesis Hobj : ∀ ps, Forall (fun p => P (snd p)) ps → P (VObj ps).

Fixpoint value_ind (v : value) : P v :=
  match v with
  | VUndefined => Hundefined
  | VNull => Hnull
  | VBool b => Hbool b
  | VNum n => Hnum n
  | VStr s => Hstr s
  | VArr xs =>
      Harr xs
        ((fix elements (l : list value) : Forall P l :=
            match l with
            | [] => @List.Forall_nil _ P
            | x :: l' => @List.Forall_cons _ P x l' (value_ind x) (elements l')
            end) xs)
  | VObj ps =>
      Hobj ps
        ((fix members (l : list (string * value)) : Forall (fun p => P (snd p)) l :=
            match l with
            | [] => @List.Forall_nil _ _
            | p :: l' => @List.Forall_cons _ _ p l' (value_ind (snd p)) (members l')
            end) ps)
  end.
End value_induction.

(** A token is followed by the end of the text or by one of the three
    characters that can follow a value inside an array or an object. *)
Definition ends_token (r : chars) : bool :=
  match r with
  | [] => true
  | c :: _ => Ascii.eqb c "," || Ascii.eqb c "]" || Ascii.eqb c "}"
  end.

(** The characters a serialized value can start with. *)
Definition starts_number (c : ascii) : bool :=
  Ascii.eqb c "-" || is_digit c.

Definition starts_value (c : ascii) : bool :=
  Ascii.eqb c "n" || Ascii.eqb c "t" || Ascii.eqb c "f" || Ascii.eqb c "034"
  || Ascii.eqb c "[" || Ascii.eqb c "{" || starts_number c.

(** The text an array writes for an element. *)
Definition element_text (x : value) : chars := default null_text (serialize x).

(** The text an object writes for a property that has a serialization. *)
Definition member_text (p : string * value) : chars :=
  quote_string (fst p) ++ ":"%char :: element_text (snd p).

(** What [JSON.stringify] makes of a value before it writes it:
    a non-finite number is written as [null], the negative zero as [0],
    an array element without a serialization as [null], and a property
    without one is left out. *)
Definition normalize_element (normalize : value → value) (x : value) : value :=
  match x with
  | VUndefined => VNull
  | _ => normalize x
  end.

Definition normalize_member (normalize : value → value) (p : string * value)
  : list (string * value) :=
  match snd p with
  | VUndefined => []
  | _ => [(fst p, normalize (snd p))]
  end.

Fixpoint normalize (v : value) : value :=
  match v with
  | VNum (Zero _) => VNum (Zero false)
  | VNum (Binary neg m e) => VNum (Binary neg m e)
  | VNum _ => VNull
  | VArr xs => VArr (map (normalize_element normalize) xs)
  | VObj ps => VObj (flat_map (normalize_member normalize) ps)
  | _ => v
  end.

(** Fuel that reading a value back takes. *)
Fixpoint size (v : value) : nat :=
  match v with
  | VArr xs => S (sum_list (map (fun x => S (size x)) xs))
  | VObj ps => S (sum_list (map (fun p => S (size (snd p))) ps))
  | _ => 1%nat
  end.

(** The main statement: a value that JSON represents is read back from
    its text, whatever follows the text. *)
Definition reads_back (v : value) : Prop :=
  json_value v = true → wf v = true →
  ∀ s, serialize v = Some s →
  ∀ fuel r, (size v ≤ fuel)%nat → ends_token r = true →
  parse_value fuel (s ++ r) = Some (v, r).

End JS.

Import JS.

(** ** The server side: configuration and response envelopes *)

Module Backend.

(** How the evaluation of a module ends: it completes with its export, or
    an exception leaves it and the module is not loaded. *)
Inductive completion (A : Type) :=
| Normal (a : A)
| Throw (e : value).
Arguments Normal {A} a.
Arguments Throw {A} e.

(** [process.env.NAME]: a string, or [undefined] when the variable is not
    set. The [!] after it in the source is a compile-time annotation and is
    erased; nothing is checked when the module runs. *)
Definition env_lookup (env : gmap string string) (name : string) : value :=
  match env !! name with
  | Some s => VStr s
  | None => VUndefined
  end.

(** config/index.ts *)
Definition corsOption (env : gmap string string) : value :=
  VObj [ ("Access-Control-Allow-Origin", env_lookup env "ALLOWED_ORIGIN");
         ("Access-Control-Allow-Credentials", VBool false);
         ("Access-Control-Allow-Headers", VStr "Content-Type, Authorization");
         ("Access-Control-Allow-Methods", VStr "GET, POST, PUT, DELETE, OPTIONS");
         ("Content-Type", VStr "application/json") ].

(** Evaluating the module is evaluating that object literal. *)
Definition load_config (env : gmap string string) : completion value :=
  Normal (corsOption env).

(** The gateway's result type. [body] is what [JSON.stringify] returned:
    [None] is [undefined]. *)
Record APIGatewayProxyResult := {
  statusCode : Z;
  headers : value;
  body : option string
}.

Section Responses.
(** The environment the process was started with; [corsOption] is
    built from it once and both helpers use that one object. *)
Variable env : gmap string string.

(** A status code argument left out is [None]; the default applies. *)
Definition successResponse (payload : value) (status : option Z)
  : APIGatewayProxyResult :=
  {| statusCode := default 200 status;
     headers := corsOption env;
     body := JSON_stringify payload |}.

Definition errorResponse (error message : string) (status : option Z)
  : APIGatewayProxyResult :=
  {| statusCode := default 500 status;
     headers := corsOption env;
     body := JSON_stringify (VObj [("error", VStr error); ("message", VStr message)]) |}.
End Responses.

End Backend.

(** ** The browser side: the axios instance and the item service *)

Module Frontend.

Inductive Method := GET | POST | PUT | DELETE.

Record AxiosRequestConfig := {
  cfg_method : Method;
  cfg_url : string;
  cfg_baseURL : string;
  cfg_headers : gmap string string;
  cfg_data : value
}.

Record AxiosResponse := {
  res_status : Z;
  res_data : value
}.

(** The error axios rejects with: [response] is missing when nothing
    came back from the server. *)
Record AxiosError := {
  err_config : AxiosRequestConfig;
  err_response : option AxiosResponse
}.

(** What the browser holds and what has left it: the storage entries,
    the assignments made to [window.location.href] (each one starts a
    navigation; latest first) and the requests put on the wire (latest
    first). *)
Record World := {
  localStorage : gmap string string;
  navigations : list string;
  sent : list AxiosRequestConfig
}.

Inductive Settled (A : Type) :=
| Fulfilled (a : A)
| Rejected (e : AxiosError).
Arguments Fulfilled {A} a.
Arguments Rejected {A} e.

(** A promise-returning computation, run to its settlement. *)
Definition Promise (A : Type) : Type := World -> World * Settled A.

Definition resolve {A} (a : A) : Promise A := fun w => (w, Fulfilled a).
Definition reject {A} (e : AxiosError) : Promise A := fun w => (w, Rejected e).

(** [await p] inside an async function, followed by the rest of its
    body: a rejection of [p] is thrown and rejects the function's own
    promise. *)
Definition await {A B} (p : Promise A) (k : A -> Promise B) : Promise B :=
  fun w =>
    match p w with
    | (w', Fulfilled a) => k a w'
    | (w', Rejected e) => (w', Rejected e)
    end.

Notation "'do' x <- p ; k" := (await p (fun x => k))
  (at level 10, x binder, p at level 100, k at level 200).

Definition localStorage_getItem (key : string) (w : World) : option string :=
  localStorage w !! key.

Definition localStorage_removeItem (key : string) (w : World) : World :=
  {| localStorage := delete key (localStorage w);
     navigations := navigations w;
     sent := sent w |}.

Definition set_location_href (target : string) (w : World) : World :=
  {| localStorage := localStorage w;
     navigations := target :: navigations w;
     sent := sent w |}.

(** [if (token)] on a [string | null]: [null] and the empty string are
    falsy. *)
Definition truthy (token : option string) : bool :=
  match token with
  | Some t => negb (String.eqb t "")
  | None => false
  end.

Definition set_header (name v : string) (config : AxiosRequestConfig)
  : AxiosRequestConfig :=
  {| cfg_method := cfg_method config;
     cfg_url := cfg_url config;
     cfg_baseURL := cfg_baseURL config;
     cfg_headers := <[name := v]> (cfg_headers config);
     cfg_data := cfg_data config |}.

(** api.interceptors.request *)
Definition request_interceptor (w : World) (config : AxiosRequestConfig)
  : AxiosRequestConfig :=
  let token := localStorage_getItem "idToken" w in
  if truthy token
  then set_header "Authorization" ("Bearer " +:+ default "" token) config
  else config.

(** api.interceptors.response, first handler *)
Definition response_fulfilled (response : AxiosResponse) : AxiosResponse :=
  response.

(** [error.response?.status === 401] *)
Definition is_unauthorized (error : AxiosError) : bool :=
  match err_response error with
  | Some r => res_status r =? 401
  | None => false
  end.

Definition clear_session (w : World) : World :=
  set_location_href "/signin"
    (localStorage_removeItem "idToken"
       (localStorage_removeItem "refreshToken"
          (localStorage_removeItem "accessToken" w))).

(** api.interceptors.response, second handler *)
Definition response_rejected (error : AxiosError) : Promise AxiosResponse :=
  fun w =>
    let w' := if is_unauthorized error then clear_session w else w in
    reject error w'.

(** axios settles a reply by its default [validateStatus]. *)
Definition validateStatus (status : Z) : bool :=
  (200 <=? status) && (status <? 300).

(** What the adapter gets for a request. *)
Inductive Outcome :=
| Reply (r : AxiosResponse)
| NoReply.

Section Client.
(** '@/config' is not part of the sources at hand. *)
Variable API_BASE_URL : string.
(** The other end of the wire. *)
Variable server : AxiosRequestConfig -> Outcome.

(** The request a verb method of the instance starts from: the
    defaults given to [axios.create] and the call's own arguments. The
    headers are the ones this file sets; the defaults of the library
    itself and what its adapter does with the headers when it writes the
    request are outside the model. *)
Definition api_config (m : Method) (url : string) (data : value)
  : AxiosRequestConfig :=
  {| cfg_method := m;
     cfg_url := url;
     cfg_baseURL := API_BASE_URL;
     cfg_headers := {[ "Content-Type" := "application/json" ]};
     cfg_data := data |}.

Definition dispatch (config : AxiosRequestConfig) (w : World) : World :=
  {| localStorage := localStorage w;
     navigations := navigations w;
     sent := config :: sent w |}.

(** [api.request]: the request handler, the adapter, the settlement,
    then the response handlers. *)
Definition api_request (config : AxiosRequestConfig) : Promise AxiosResponse :=
  fun w =>
    let config' := request_interceptor w config in
    let w1 := dispatch config' w in
    match server config' with
    | Reply r =>
        if validateStatus (res_status r)
        then resolve (response_fulfilled r) w1
        else response_rejected {| err_config := config'; err_response := Some r |} w1
    | NoReply =>
        response_rejected {| err_config := config'; err_response := None |} w1
    end.

Definition api_get (url : string) := api_request (api_config GET url VUndefined).
Definition api_delete (url : string) := api_request (api_config DELETE url VUndefined).
Definition api_post (url : string) (data : value) := api_request (api_config POST url data).
Definition api_put (url : string) (data : value) := api_request (api_config PUT url data).

(** itemService *)
Definition createItem (item : value) : Promise value :=
  do response <- api_post "/items" item ;
  resolve (res_data response).

Definition getItem (id : string) : Promise value :=
  do response <- api_get ("/items/" +:+ id) ;
  resolve (res_data response).

Definition getAllItems : Promise value :=
  do response <- api_get "/items/all" ;
  resolve (res_data response).

Definition listItems : Promise value :=
  do response <- api_get "/items" ;
  resolve (res_data response).

Definition updateItem (id : string) (item : value) : Promise value :=
  do response <- api_put ("/items/" +:+ id) item ;
  resolve (res_data response).

(** The function body ends after the [await]: the promise resolves
    with [undefined]. *)
Definition deleteItem (id : string) : Promise value :=
  do _ <- api_delete ("/items/" +:+ id) ;
  resolve VUndefined.
End Client.

End Frontend.


Import Backend Frontend.

(** ** The item service as a whole *)

Module Operations.

(** The six entries of [itemService]. *)
Inductive Operation :=
| OpCreate (item : value)
| OpGet (id : string)
| OpGetAll
| OpList
| OpUpdate (id : string) (item : value)
| OpDelete (id : string).

Section Perform.
Variable API_BASE_URL : string.
Variable server : AxiosRequestConfig → Outcome.

(** The function of [itemService] an operation names. *)
Definition perform (op : Operation) : Promise value :=
  match op with
  | OpCreate item => createItem API_BASE_URL server item
  | OpGet id => getItem API_BASE_URL server id
  | OpGetAll => getAllItems API_BASE_URL server
  | OpList => listItems API_BASE_URL server
  | OpUpdate id item => updateItem API_BASE_URL server id item
  | OpDelete id => deleteItem API_BASE_URL server id
  end.

(** The verb, path and payload in the call each function makes on the
    instance. *)
Definition request_of (op : Operation) : AxiosRequestConfig :=
  match op with
  | OpCreate item => api_config API_BASE_URL POST "/items" item
  | OpGet id => api_config API_BASE_URL GET ("/items/" +:+ id) VUndefined
  | OpGetAll => api_config API_BASE_URL GET "/items/all" VUndefined
  | OpList => api_config API_BASE_URL GET "/items" VUndefined
  | OpUpdate id item => api_config API_BASE_URL PUT ("/items/" +:+ id) item
  | OpDelete id => api_config API_BASE_URL DELETE ("/items/" +:+ id) VUndefined
  end.

(** What a function returns from a fulfilled call: [response.data], or
    nothing for [deleteItem]. *)
Definition result_of (op : Operation) (response : AxiosResponse) : value :=
  match op with
  | OpDelete _ => VUndefined
  | _ => res_data response
  end.
End Perform.

End Operations.

(** ** What the components do with a failed call *)

Module Failures.

(** What a [catch] clause can receive: an error of axios, or anything
    else. *)
Inductive Thrown :=
| AxiosFailure (e : AxiosError)
| OtherFailure.

(** An awaited call, as the code after the [await] sees it. *)
Inductive Awaited (A : Type) :=
| Returned (a : A)
| Threw (t : Thrown).
Arguments Returned {A} a.
Arguments Threw {A} t.

Definition awaited {A} (r : Settled A) : Awaited A :=
  match r with
  | Fulfilled a => Returned a
  | Rejected e => Threw (AxiosFailure e)
  end.

(** ToBoolean *)
Definition js_truthy (v : value) : bool :=
  match v with
  | VUndefined | VNull => false
  | VBool b => b
  | VNum (Zero _) | VNum NaN => false
  | VNum _ => true
  | VStr s => negb (String.eqb s "")
  | VArr _ | VObj _ => true
  end.

(** [a || b] *)
Definition or_else (a b : value) : value :=
  if js_truthy a then a else b.

(** [err.response?.data] *)
Definition response_data (err : AxiosError) : value :=
  match err_response err with
  | Some r => res_data r
  | None => VUndefined
  end.

(** [err.response?.data?.message] *)
Definition response_message (err : AxiosError) : value :=
  property "message" (response_data err).

End Failures.

(** ** Dashboard.tsx *)

Module Dashboard.
Import Failures.

Record DeleteModal := {
  isOpen : bool;
  modal_itemId : option string
}.

Section Component.
(** '../types/item' is not among the sources at hand; the component reads
    two fields of an item as strings. *)
Variable Item : Type.
Variable itemId : Item → string.
Variable category : Item → string.

(** The state of the component. [error] holds whatever [setError] was
    given. [pending_clears] are the delays of the [setTimeout] calls of
    [showSuccess] that have not fired, latest first; [clear_fires] is the
    oldest of them firing. *)
Record State := {
  items : list Item;
  loading : bool;
  error : value;
  showFormModal : bool;
  editingItem : option Item;
  deleteModal : DeleteModal;
  successMessage : string;
  pending_clears : list Z
}.

Definition setItems (f : list Item → list Item) (st : State) : State :=
  {| items := f (items st); loading := loading st; error := error st;
     showFormModal := showFormModal st; editingItem := editingItem st;
     deleteModal := deleteModal st; successMessage := successMessage st;
     pending_clears := pending_clears st |}.

Definition setLoading (b : bool) (st : State) : State :=
  {| items := items st; loading := b; error := error st;
     showFormModal := showFormModal st; editingItem := editingItem st;
     deleteModal := deleteModal st; successMessage := successMessage st;
     pending_clears := pending_clears st |}.

Definition setError (e : value) (st : State) : State :=
  {| items := items st; loading := loading st; error := e;
     showFormModal := showFormModal st; editingItem := editingItem st;
     deleteModal := deleteModal st; successMessage := successMessage st;
     pending_clears := pending_clears st |}.

Definition setShowFormModal (b : bool) (st : State) : State :=
  {| items := items st; loading := loading st; error := error st;
     showFormModal := b; editingItem := editingItem st;
     deleteModal := deleteModal st; successMessage := successMessage st;
     pending_clears := pending_clears st |}.

Definition setEditingItem (e : option Item) (st : State) : State :=
  {| items := items st; loading := loading st; error := error st;
     showFormModal := showFormModal st; editingItem := e;
     deleteModal := deleteModal st; successMessage := successMessage st;
     pending_clears := pending_clears st |}.

Definition setDeleteModal (m : DeleteModal) (st : State) : State :=
  {| items := items st; loading := loading st; error := error st;
     showFormModal := showFormModal st; editingItem := editingItem st;
     deleteModal := m; successMessage := successMessage st;
     pending_clears := pending_clears st |}.

Definition showSuccess (message : string) (st : State) : State :=
  {| items := items st; loading := loading st; error := error st;
     showFormModal := showFormModal st; editingItem := editingItem st;
     deleteModal := deleteModal st; successMessage := message;
     pending_clears := 3000 :: pending_clears st |}.

(** The callback of the timer, [() => setSuccessMessage('')], run when
    the oldest pending timer fires: it empties the message, whichever call
    of [showSuccess] set it. With no timer pending nothing happens. *)
Definition clear_fires (st : State) : State :=
  match pending_clears st with
  | [] => st
  | _ :: _ =>
      {| items := items st; loading := loading st; error := error st;
         showFormModal := showFormModal st; editingItem := editingItem st;
         deleteModal := deleteModal st; successMessage := "";
         pending_clears := removelast (pending_clears st) |}
  end.

Definition closed_modal : DeleteModal := {| isOpen := false; modal_itemId := None |}.

(** The [catch] clauses: the message of the reply if it has a truthy one,
    else a fixed text. *)
Definition failure_message (axios_text other_text : string) (t : Thrown) : value :=
  match t with
  | AxiosFailure err => or_else (response_message err) (VStr axios_text)
  | OtherFailure => VStr other_text
  end.

(** [loadItems], up to its [await] and from there on. *)
Definition loadItems_start (st : State) : State := setLoading true st.

Definition loadItems_settle (r : Awaited (list Item)) (st : State) : State :=
  setLoading false
    match r with
    | Returned data => setError (VStr "") (setItems (fun _ => data) st)
    | Threw t =>
        setError
          (failure_message "An error occurred"
             "Failed to load items. Please check if you are authenticated." t) st
    end.

Definition handleNewProduct (st : State) : State :=
  setShowFormModal true (setEditingItem None st).

(** The three state updates on the list. *)
Definition append_item (newItem : Item) (prev : list Item) : list Item :=
  prev ++ [newItem].

Definition replace_item (editing updatedItem : Item) (prev : list Item) : list Item :=
  map (fun item => if String.eqb (itemId item) (itemId editing) then updatedItem else item) prev.

Definition remove_item (id : string) (prev : list Item) : list Item :=
  List.filter (fun item => negb (String.eqb (itemId item) id)) prev.

Definition handleCreateItem_settle (r : Awaited Item) (st : State) : State :=
  match r with
  | Returned newItem =>
      showSuccess "Product created successfully! 🎉"
        (setError (VStr "") (setShowFormModal false (setItems (append_item newItem) st)))
  | Threw t => setError (failure_message "Failed to create item" "Failed to create item" t) st
  end.

(** [handleUpdateItem] makes its call only while an item is being edited;
    the call is for that item's id. *)
Definition handleUpdateItem_call (st : State) : option string :=
  match editingItem st with
  | Some editing => Some (itemId editing)
  | None => None
  end.

Definition handleUpdateItem_settle (editing : Item) (r : Awaited Item) (st : State) : State :=
  match r with
  | Returned updatedItem =>
      showSuccess "Product updated successfully! ✨"
        (setError (VStr "")
           (setShowFormModal false
              (setEditingItem None (setItems (replace_item editing updatedItem) st))))
  | Threw t => setError (failure_message "Failed to update item" "Failed to update item" t) st
  end.

Definition handleDeleteItem_settle (id : string) (r : Awaited value) (st : State) : State :=
  match r with
  | Returned _ =>
      showSuccess "Product deleted successfully! 🗑️"
        (setDeleteModal closed_modal (setError (VStr "") (setItems (remove_item id) st)))
  | Threw t =>
      setDeleteModal closed_modal
        (setError (failure_message "Failed to delete item" "Failed to delete item" t) st)
  end.

Definition confirmDelete (id : string) (st : State) : State :=
  setDeleteModal {| isOpen := true; modal_itemId := Some id |} st.

Definition handleEdit (item : Item) (st : State) : State :=
  setShowFormModal true (setEditingItem (Some item) st).

Definition handleCancel (st : State) : State := setShowFormModal false st.

(** [handleRefresh] starts [loadItems] and announces at once. *)
Definition handleRefresh (st : State) : State :=
  showSuccess "Products refreshed! 🔄" (loadItems_start st).

(** [deleteModal.itemId && handleDeleteItem(deleteModal.itemId)]: the id the
    confirmation deletes, if any. *)
Definition onConfirm (st : State) : option string :=
  match modal_itemId (deleteModal st) with
  | Some id => if String.eqb id "" then None else Some id
  | None => None
  end.

(** [handleDeleteItem] with the item service behind it. *)
Definition handleDeleteItem (API_BASE_URL : string) (server : AxiosRequestConfig → Outcome)
    (id : string) (w : World) (st : State) : World * State :=
  let '(w', r) := deleteItem API_BASE_URL server id w in
  (w', handleDeleteItem_settle id (awaited r) st).

(** The two counters of the header that are not sums of prices. *)
Definition total_products (st : State) : nat := length (items st).

Definition categories_count (st : State) : nat :=
  stdpp.base.size (list_to_set (map category (items st)) : gset string).

End Component.

Arguments Build_State {Item}.
Arguments items {Item}.
Arguments loading {Item}.
Arguments error {Item}.
Arguments showFormModal {Item}.
Arguments editingItem {Item}.
Arguments deleteModal {Item}.
Arguments successMessage {Item}.
Arguments pending_clears {Item}.
Arguments setItems {Item}.
Arguments setLoading {Item}.
Arguments setError {Item}.
Arguments setShowFormModal {Item}.
Arguments setEditingItem {Item}.
Arguments setDeleteModal {Item}.
Arguments showSuccess {Item}.
Arguments clear_fires {Item}.
Arguments loadItems_start {Item}.
Arguments loadItems_settle {Item}.
Arguments handleNewProduct {Item}.
Arguments append_item {Item}.
Arguments replace_item {Item}.
Arguments remove_item {Item}.
Arguments handleCreateItem_settle {Item}.
Arguments handleUpdateItem_call {Item}.
Arguments handleUpdateItem_settle {Item}.
Arguments handleDeleteItem_settle {Item}.
Arguments confirmDelete {Item}.
Arguments handleEdit {Item}.
Arguments handleCancel {Item}.
Arguments handleRefresh {Item}.
Arguments onConfirm {Item}.
Arguments handleDeleteItem {Item}.
Arguments total_products {Item}.
Arguments categories_count {Item}.
End Dashboard.

(** ** SignUpForm.tsx *)

Module SignUpForm.
Import Failures.

(** [formData] is updated under computed names, so it is a map. *)
Record State := {
  formData : gmap string string;
  error : value;
  isLoading : bool
}.

Definition initial : State :=
  {| formData := {[ "email" := ""; "password" := ""; "name" := ""; "confirmPassword" := "" ]};
     error := VStr "";
     isLoading := false |}.

Definition setError (e : value) (st : State) : State :=
  {| formData := formData st; error := e; isLoading := isLoading st |}.

Definition setIsLoading (b : bool) (st : State) : State :=
  {| formData := formData st; error := error st; isLoading := b |}.

Definition handleChange (name v : string) (st : State) : State :=
  {| formData := <[name := v]> (formData st); error := error st; isLoading := isLoading st |}.

(** How [handleSubmit] gets to its [await]: it returns early with a
    message, or calls [signUp], or stops on the [TypeError] of reading
    [length] of a password that is not there. *)
Inductive Submit :=
| Refused (st : State)
| Calls (email : option string) (password : string) (name : option string) (st : State)
| TypeError.

Definition handleSubmit_start (st : State) : Submit :=
  let password := formData st !! "password" in
  let confirmPassword := formData st !! "confirmPassword" in
  if negb (bool_decide (password = confirmPassword)) then
    Refused (setError (VStr "Passwords do not match") st)
  else
    match password with
    | None => TypeError
    | Some p =>
        if (String.length p <? 8)%nat then
          Refused (setError (VStr "Password must be at least 8 characters long") st)
        else
          Calls (formData st !! "email") p (formData st !! "name")
            (setError (VStr "") (setIsLoading true st))
    end.

Definition handleSubmit_settle (r : Awaited unit) (st : State) : State :=
  setIsLoading false
    match r with
    | Returned _ => st
    | Threw (AxiosFailure err) => setError (response_data err) st
    | Threw OtherFailure => setError (VStr "Failed to create new account") st
    end.

End SignUpForm.

(** ** The sign-in form *)

Module SignInForm.
Import Failures.

Record State := {
  email : string;
  password : string;
  error : value;
  isLoading : bool
}.

Definition setError (e : value) (st : State) : State :=
  {| email := email st; password := password st; error := e; isLoading := isLoading st |}.

Definition setIsLoading (b : bool) (st : State) : State :=
  {| email := email st; password := password st; error := error st; isLoading := b |}.

Definition onChange (field_id v : string) (st : State) : State :=
  if String.eqb field_id "email"
  then {| email := v; password := password st; error := error st; isLoading := isLoading st |}
  else {| email := email st; password := v; error := error st; isLoading := isLoading st |}.

(** [handleSubmit] up to its [await]: the state, and the arguments of
    [signIn]. *)
Definition handleSubmit_start (st : State) : State * (string * string) :=
  (setError (VStr "") (setIsLoading true st), (email st, password st)).

Definition handleSubmit_settle (r : Awaited unit) (st : State) : State :=
  setIsLoading false
    match r with
    | Returned _ => st
    | Threw (AxiosFailure err) => setError (response_message err) st
    | Threw OtherFailure => setError (VStr "Failed to sign in") st
    end.

End SignInForm.

(** ** Sample data *)

Definition unauthorized : AxiosResponse :=
  {| res_status := 401;
     res_data := VObj [("error", VStr "Unauthorized"); ("message", VStr "token expired")] |}.

Definition not_found : AxiosResponse :=
  {| res_status := 404;
     res_data := VObj [("error", VStr "NotFound"); ("message", VStr "no such item")] |}.

Definition no_content : AxiosResponse :=
  {| res_status := 204; res_data := VStr "" |}.

Definition signed_in : World :=
  {| localStorage :=
       {[ "accessToken" := "acc"; "refreshToken" := "ref"; "idToken" := "idt" ]};
     navigations := [];
     sent := [] |}.

Definition other_tokens : World :=
  {| localStorage :=
       {[ "accessToken" := "other"; "idToken" := "idt" ]};
     navigations := [];
     sent := [] |}.

Definition empty_token : World :=
  {| localStorage := {[ "idToken" := "" ]};
     navigations := [];
     sent := [] |}.

(** The object an error envelope carries. *)
Definition error_pair (e m : string) : value :=
  VObj [("error", VStr e); ("message", VStr m)].

Definition item_x : value :=
  VObj [("itemId", VStr "x"); ("price", VNum (Finite 9)); ("category", VStr "c")].

(** The double nearest to 9.99, and an item at that price. *)
Definition price_9_99 : number := Binary false 5623870034678907 (-49).




(** A payload with everything JSON replaces in it, and what comes back
    for it. *)
Definition lossy_item : value :=
  VObj [("price", VNum price_9_99); ("change", VNum (Zero true));
        ("owner", VUndefined); ("sizes", VArr [VUndefined; VNum NegInfinity])].

Definition lossy_item_read : value :=
  VObj [("price", VNum price_9_99); ("change", VNum (Zero false));
        ("sizes", VArr [VNull; VNull])].

(** Items as pairs of an id and a category, and a dashboard showing three
    of them. *)
Definition demo_items : list (string * string) :=
  [("a", "tools"); ("b", "toys"); ("c", "tools")].

Definition demo_dashboard : Dashboard.State (string * string) :=
  {| Dashboard.items := demo_items;
     Dashboard.loading := false;
     Dashboard.error := VStr "";
     Dashboard.showFormModal := false;
     Dashboard.editingItem := None;
     Dashboard.deleteModal := Dashboard.closed_modal;
     Dashboard.successMessage := "";
     Dashboard.pending_clears := [] |}.

Definition signed_out : World :=
  {| localStorage := ∅; navigations := []; sent := [] |}.

Example stringify_array :
  JSON_stringify (VArr [VNull; VBool true; VNum (Finite (-12)); VUndefined; VArr []; VObj []])
  = Some "[null,true,-12,null,[],{}]"%string.
Proof. vm_compute. reflexivity. Qed.

(** Numbers as the two functions treat them: the shortest digits that
    give the double back, the exponent form from 1e21 on and below 1e-6,
    the negative zero written as [0], and literals past the range of the
    doubles read as infinities. *)
Example number_texts :
  JSON_parse "9.99" = Some (VNum price_9_99)
  ∧ JSON_stringify (VNum price_9_99) = Some "9.99"%string
  ∧ JSON_parse "0.1" = Some (VNum (Binary false 7205759403792794 (-56)))
  ∧ JSON_stringify (VNum (Binary false 7205759403792794 (-56))) = Some "0.1"%string
  ∧ JSON_stringify (VArr [VNum (Finite 1000000000000000000000); VNum (Binary false 1 (-1074))])
    = Some "[1e+21,5e-324]"%string
  ∧ JSON_parse "[1E21, 5e-324, 12.50, 9007199254740993]"
    = Some (VArr [VNum (Finite 1000000000000000000000); VNum (Binary false 1 (-1074));
                  VNum (Binary false 7036874417766400 (-49));
                  VNum (Finite 9007199254740992)])
  ∧ JSON_parse "-0" = Some (VNum (Zero true))
  ∧ JSON_stringify (VNum (Zero true)) = Some "0"%string
  ∧ JSON_parse "1e400" = Some (VNum PosInfinity)
  ∧ JSON_parse "01" = None ∧ JSON_parse "1." = None ∧ JSON_parse ".5" = None.
Proof. vm_compute. repeat split. Qed.

(** ** The response envelope *)

Section Envelope.
Variable env : gmap string string.

(** C3: whatever the payload, the error and the status codes, the
    headers of a success envelope are the headers of an error envelope. *)
Theorem headers_same_on_both_paths (p : value) (s : option Z)
    (e m : string) (s2 : option Z) :
  headers (successResponse env p s) = headers (errorResponse env e m s2).
Proof. reflexivity. Qed.

(** C9: with the status code left out, a success envelope has status 200
    and an error envelope has status 500. *)
Theorem default_status_codes (p : value) (e m : string) :
  statusCode (successResponse env p None) = 200
  ∧ statusCode (errorResponse env e m None) = 500.
Proof. split; reflexivity. Qed.

Lemma explicit_status_code (p : value) (e m : string) (s : Z) :
  statusCode (successResponse env p (Some s)) = s
  ∧ statusCode (errorResponse env e m (Some s)) = s.
Proof. split; reflexivity. Qed.
End Envelope.

(** ** Configuration *)

(** C6 as stated fails: with no ALLOWED_ORIGIN in the environment the
    configuration module still loads; nothing is thrown. *)
Lemma load_config_without_origin :
  (∅ : gmap string string) !! "ALLOWED_ORIGIN" = None
  ∧ ¬ (∃ e, load_config ∅ = Throw e)
  ∧ property "Access-Control-Allow-Origin" (headers (successResponse ∅ VNull None))
    = VUndefined.
Proof.
  split; [reflexivity|]. split; [|reflexivity].
  intros [e He]. discriminate He.
Qed.

(** C6, amended: when the allowed origin is absent the module loads all
    the same, its origin header is [undefined], and the envelopes are built
    with that header object. *)
Theorem missing_origin_loads (env : gmap string string) :
  env !! "ALLOWED_ORIGIN" = None →
  load_config env = Normal (corsOption env)
  ∧ property "Access-Control-Allow-Origin" (corsOption env) = VUndefined
  ∧ ∀ p s, headers (successResponse env p s) = corsOption env.
Proof.
  intros Habsent. split; [reflexivity|]. split; [|reflexivity].
  unfold corsOption, env_lookup. rewrite Habsent. reflexivity.
Qed.

Lemma missing_origin_loads_witness :
  (∅ : gmap string string) !! "ALLOWED_ORIGIN" = None
  ∧ load_config ∅ = Normal (corsOption ∅).
Proof.
  split; [reflexivity|].
  apply (missing_origin_loads ∅). reflexivity.
Defined.

Lemma present_origin_loads (env : gmap string string) (o : string) :
  env !! "ALLOWED_ORIGIN" = Some o →
  property "Access-Control-Allow-Origin" (corsOption env) = VStr o.
Proof.
  intros Ho. unfold corsOption, env_lookup. rewrite Ho. reflexivity.
Qed.

(** ** The interceptors *)

Section Interceptors.
Variable API_BASE_URL : string.
Variable server : AxiosRequestConfig → Outcome.

Lemma truthy_Some (t : string) : t ≠ "" → truthy (Some t) = true.
Proof.
  intros Ht. simpl. destruct (String.eqb_spec t ""); [contradiction | reflexivity].
Qed.

Lemma truthy_falsy (o : option string) :
  truthy o = false ↔ o = None ∨ o = Some "".
Proof.
  destruct o as [t|]; simpl.
  - destruct (String.eqb_spec t "") as [->|Hne]; simpl.
    + split; [right; reflexivity | reflexivity].
    + split; [discriminate | intros [H|H]; [discriminate | congruence]].
  - split; [left; reflexivity | reflexivity].
Qed.

Lemma request_interceptor_token (w : World) (config : AxiosRequestConfig) (t : string) :
  localStorage w !! "idToken" = Some t → t ≠ "" →
  request_interceptor w config = set_header "Authorization" ("Bearer " +:+ t) config.
Proof.
  intros Hget Hne. unfold request_interceptor, localStorage_getItem.
  rewrite Hget, truthy_Some by assumption. reflexivity.
Qed.

Lemma request_interceptor_no_token (w : World) (config : AxiosRequestConfig) :
  truthy (localStorage w !! "idToken") = false →
  request_interceptor w config = config.
Proof.
  intros Hf. unfold request_interceptor, localStorage_getItem. rewrite Hf. reflexivity.
Qed.

Lemma api_config_no_authorization (m : Method) (url : string) (data : value) :
  cfg_headers (api_config API_BASE_URL m url data) !! "Authorization" = None.
Proof. reflexivity. Qed.

Lemma api_request_sent (config : AxiosRequestConfig) (w : World) :
  sent (api_request server config w).1 = request_interceptor w config :: sent w.
Proof.
  unfold api_request, response_rejected, reject, resolve.
  destruct (server _) as [r|]; [destruct (validateStatus _)|]; simpl;
    try destruct (is_unauthorized _); reflexivity.
Qed.

(** C2 as stated fails at an empty token: the entry is there, and no
    header is set. *)
Lemma empty_token_no_header :
  localStorage empty_token !! "idToken" = Some ""
  ∧ cfg_headers (request_interceptor empty_token (api_config "" GET "/items" VUndefined))
      !! "Authorization" ≠ Some ("Bearer " +:+ "")
  ∧ cfg_headers (request_interceptor empty_token (api_config "" GET "/items" VUndefined))
      !! "Authorization" = None.
Proof. split; [reflexivity|]. split; [discriminate | reflexivity]. Qed.

(** C2, amended: for every request of the instance, a non-empty idToken
    in storage makes the request go out with the Authorization header
    [Bearer <token>]; with no idToken entry, or an empty one, the request
    goes out as it was composed, without an Authorization header. *)
Theorem bearer_header_from_idToken (m : Method) (url : string) (data : value) (w : World) :
  let config := api_config API_BASE_URL m url data in
  let out := request_interceptor w config in
  sent (api_request server config w).1 = out :: sent w
  ∧ (∀ t, localStorage w !! "idToken" = Some t → t ≠ "" →
       cfg_headers out !! "Authorization" = Some ("Bearer " +:+ t))
  ∧ (localStorage w !! "idToken" = None ∨ localStorage w !! "idToken" = Some "" →
       out = config ∧ cfg_headers out !! "Authorization" = None).
Proof.
  intros config out. split; [apply api_request_sent|]. split.
  - intros t Hget Hne. unfold out.
    rewrite (request_interceptor_token _ _ t) by assumption.
    simpl. apply lookup_insert_eq.
  - intros Hfalsy. apply truthy_falsy in Hfalsy.
    unfold out. rewrite request_interceptor_no_token by assumption.
    split; [reflexivity | apply api_config_no_authorization].
Qed.
End Interceptors.

Lemma bearer_header_from_idToken_witness :
  localStorage signed_in !! "idToken" = Some "idt"
  ∧ "idt" ≠ ""
  ∧ cfg_headers (request_interceptor signed_in (api_config "https://api" GET "/items" VUndefined))
      !! "Authorization" = Some "Bearer idt"
  ∧ localStorage signed_out !! "idToken" = None
  ∧ cfg_headers (request_interceptor signed_out (api_config "https://api" GET "/items" VUndefined))
      !! "Authorization" = None.
Proof.
  split; [reflexivity|]. split; [discriminate|]. split.
  - apply (bearer_header_from_idToken "https://api" (fun _ => NoReply) GET "/items" VUndefined
             signed_in); [reflexivity | discriminate].
  - split; [reflexivity|].
    apply (bearer_header_from_idToken "https://api" (fun _ => NoReply) GET "/items" VUndefined
             signed_out). left. reflexivity.
Defined.

(** ** Authentication failure and pass-through *)

Section ResponsePhase.
Variable API_BASE_URL : string.
Variable server : AxiosRequestConfig → Outcome.

Lemma clear_session_storage (w : World) (key : string) :
  key = "accessToken" ∨ key = "refreshToken" ∨ key = "idToken" →
  localStorage (clear_session w) !! key = None.
Proof.
  intros [-> | [-> | ->]]; simpl.
  - rewrite !lookup_delete_ne by discriminate. apply lookup_delete_eq.
  - rewrite lookup_delete_ne by discriminate. apply lookup_delete_eq.
  - apply lookup_delete_eq.
Qed.

Lemma clear_session_other_keys (w : World) (key : string) :
  key ≠ "accessToken" → key ≠ "refreshToken" → key ≠ "idToken" →
  localStorage (clear_session w) !! key = localStorage w !! key.
Proof.
  intros H1 H2 H3. simpl. rewrite !lookup_delete_ne by congruence. reflexivity.
Qed.

(** The second response handler on an error that carries a 401. *)
Lemma response_rejected_401 (error : AxiosError) (w : World) :
  is_unauthorized error = true →
  response_rejected error w = (clear_session w, Rejected error).
Proof. intros H. unfold response_rejected, reject. rewrite H. reflexivity. Qed.

(** The second response handler on any other error, a missing response
    included. *)
Lemma response_rejected_other (error : AxiosError) (w : World) :
  is_unauthorized error = false →
  response_rejected error w = (w, Rejected error).
Proof. intros H. unfold response_rejected, reject. rewrite H. reflexivity. Qed.

Lemma validateStatus_401 : validateStatus 401 = false.
Proof. reflexivity. Qed.

(** C1: a reply with status 401 leaves the three session entries absent
    from storage, assigns the sign-in path to the location, and rejects
    the operation with the error that carries that reply. *)
Theorem unauthorized_resets_and_rejects
    (config : AxiosRequestConfig) (w : World) (r : AxiosResponse) :
  server (request_interceptor w config) = Reply r →
  res_status r = 401 →
  let error := {| err_config := request_interceptor w config; err_response := Some r |} in
  let w' := (api_request server config w).1 in
  response_rejected error (dispatch (request_interceptor w config) w)
    = api_request server config w
  ∧ localStorage w' !! "accessToken" = None
  ∧ localStorage w' !! "refreshToken" = None
  ∧ localStorage w' !! "idToken" = None
  ∧ navigations w' = "/signin" :: navigations w
  ∧ (api_request server config w).2 = Rejected error.
Proof.
  intros Hreply H401 error w'.
  assert (Hrun : api_request server config w
                 = response_rejected error (dispatch (request_interceptor w config) w)).
  { unfold api_request. rewrite Hreply, H401, validateStatus_401. reflexivity. }
  unfold w'. rewrite Hrun.
  rewrite response_rejected_401
    by (unfold is_unauthorized, error; simpl; rewrite H401; reflexivity).
  simpl fst; simpl snd.
  split; [reflexivity|].
  repeat split; try (apply clear_session_storage; tauto).
Qed.

(** C7: a reply with a status other than 401 leaves storage and location
    as they were; the operation is fulfilled with the reply when its
    status is 2xx and rejected with the error that carries the reply
    otherwise. Each response handler by itself returns what it was given. *)
Theorem other_status_passes_through
    (config : AxiosRequestConfig) (w : World) (r : AxiosResponse) :
  server (request_interceptor w config) = Reply r →
  res_status r ≠ 401 →
  let error := {| err_config := request_interceptor w config; err_response := Some r |} in
  let w' := (api_request server config w).1 in
  response_fulfilled r = r
  ∧ (∀ w0, response_rejected error w0 = (w0, Rejected error))
  ∧ localStorage w' = localStorage w
  ∧ navigations w' = navigations w
  ∧ (api_request server config w).2
    = if validateStatus (res_status r) then Fulfilled r else Rejected error.
Proof.
  intros Hreply Hne error w'.
  assert (Hother : is_unauthorized error = false).
  { unfold is_unauthorized, error; simpl. apply Z.eqb_neq. exact Hne. }
  split; [reflexivity|]. split.
  { intros w0. apply response_rejected_other. exact Hother. }
  unfold w', api_request. rewrite Hreply.
  destruct (validateStatus (res_status r)).
  - repeat split.
  - fold error. rewrite response_rejected_other by exact Hother. repeat split.
Qed.

(** A request that gets no reply is rejected as well, with nothing
    cleared. *)
Lemma no_reply_passes_through (config : AxiosRequestConfig) (w : World) :
  server (request_interceptor w config) = NoReply →
  api_request server config w
  = (dispatch (request_interceptor w config) w,
     Rejected {| err_config := request_interceptor w config; err_response := None |}).
Proof. intros Hnone. unfold api_request. rewrite Hnone. reflexivity. Qed.

(** C8: [deleteItem id] puts one request on the wire, a DELETE of
    [/items/<id>], and on a 2xx reply its promise resolves with
    [undefined]. *)
Theorem deleteItem_one_request (id : string) (w : World) :
  ∃ req,
    sent (deleteItem API_BASE_URL server id w).1 = req :: sent w
    ∧ cfg_method req = DELETE
    ∧ cfg_url req = "/items/" +:+ id
    ∧ ∀ r, server req = Reply r → validateStatus (res_status r) = true →
           (deleteItem API_BASE_URL server id w).2 = Fulfilled VUndefined.
Proof.
  set (config := api_config API_BASE_URL DELETE ("/items/" +:+ id) VUndefined).
  exists (request_interceptor w config).
  assert (Hsent : sent (deleteItem API_BASE_URL server id w).1
                  = request_interceptor w config :: sent w).
  { rewrite <- (api_request_sent server config w).
    unfold deleteItem, await, api_delete. fold config.
    destruct (api_request server config w) as [w1 [a|e]]; reflexivity. }
  split; [exact Hsent|].
  split; [unfold request_interceptor; destruct (truthy _); reflexivity|].
  split; [unfold request_interceptor; destruct (truthy _); reflexivity|].
  intros r Hreply H2xx.
  unfold deleteItem, await, api_delete. fold config.
  unfold api_request. rewrite Hreply, H2xx. reflexivity.
Qed.

(** C10: two storage states with the same idToken entry give the same
    outgoing request, whatever their other entries are. *)
Theorem request_depends_on_idToken_only (w1 w2 : World) (config : AxiosRequestConfig) :
  localStorage w1 !! "idToken" = localStorage w2 !! "idToken" →
  request_interceptor w1 config = request_interceptor w2 config.
Proof.
  intros Hsame. unfold request_interceptor, localStorage_getItem.
  rewrite Hsame. reflexivity.
Qed.
End ResponsePhase.

Lemma unauthorized_resets_and_rejects_witness :
  let server := fun _ : AxiosRequestConfig => Reply unauthorized in
  let config := api_config "https://api" GET "/items" VUndefined in
  server (request_interceptor signed_in config) = Reply unauthorized
  ∧ res_status unauthorized = 401
  ∧ localStorage (api_request server config signed_in).1 !! "idToken" = None
  ∧ navigations (api_request server config signed_in).1 = ["/signin"].
Proof.
  intros server config.
  split; [reflexivity|]. split; [reflexivity|].
  pose proof (unauthorized_resets_and_rejects server config signed_in unauthorized
                eq_refl eq_refl) as H.
  split; apply H.
Defined.

Lemma other_status_passes_through_witness :
  let server := fun _ : AxiosRequestConfig => Reply not_found in
  let config := api_config "https://api" GET "/items/x" VUndefined in
  server (request_interceptor signed_in config) = Reply not_found
  ∧ res_status not_found ≠ 401
  ∧ localStorage (api_request server config signed_in).1 = localStorage signed_in
  ∧ navigations (api_request server config signed_in).1 = [].
Proof.
  intros server config.
  split; [reflexivity|]. split; [discriminate|].
  assert (Hne : res_status not_found ≠ 401) by discriminate.
  pose proof (other_status_passes_through server config signed_in not_found
                eq_refl Hne) as H.
  split; apply H.
Defined.

Lemma request_depends_on_idToken_only_witness :
  localStorage signed_in !! "idToken" = localStorage other_tokens !! "idToken"
  ∧ localStorage signed_in !! "accessToken" ≠ localStorage other_tokens !! "accessToken"
  ∧ localStorage signed_in !! "refreshToken" ≠ localStorage other_tokens !! "refreshToken"
  ∧ request_interceptor signed_in (api_config "https://api" POST "/items" VNull)
    = request_interceptor other_tokens (api_config "https://api" POST "/items" VNull).
Proof.
  split; [reflexivity|]. split; [discriminate|]. split; [discriminate|].
  apply request_depends_on_idToken_only. reflexivity.
Defined.

Lemma deleteItem_one_request_witness :
  let server := fun _ : AxiosRequestConfig => Reply no_content in
  validateStatus (res_status no_content) = true
  ∧ ∃ req, sent (deleteItem "https://api" server "42" signed_in).1 = [req]
           ∧ cfg_method req = DELETE
           ∧ cfg_url req = "/items/42"%string
           ∧ (deleteItem "https://api" server "42" signed_in).2 = Fulfilled VUndefined.
Proof.
  intros server. split; [reflexivity|].
  destruct (deleteItem_one_request "https://api" server "42" signed_in)
    as (req & Hsent & Hmethod & Hurl & Hvoid).
  exists req. split; [exact Hsent|]. split; [exact Hmethod|]. split; [exact Hurl|].
  apply (Hvoid no_content); reflexivity.
Defined.

Example deleteItem_no_content :
  deleteItem "https://api" (fun _ => Reply no_content) "42" signed_in
  = ({| localStorage := localStorage signed_in;
        navigations := [];
        sent := [ {| cfg_method := DELETE;
                     cfg_url := "/items/42";
                     cfg_baseURL := "https://api";
                     cfg_headers := {[ "Content-Type" := "application/json";
                                       "Authorization" := "Bearer idt" ]};
                     cfg_data := VUndefined |} ] |},
     Fulfilled VUndefined).
Proof. vm_compute. reflexivity. Qed.

(** ** Numbers: what is written reads back *)

Module NumberFacts.

Ltac each_char c := destruct c as [[] [] [] [] [] [] [] []].

Lemma canonical_spec (m e : Z) :
  canonical m e = true ↔
  0 < m < 2 ^ 53 ∧ -1074 ≤ e ≤ 971 ∧ (2 ^ 52 ≤ m ∨ e = -1074).
Proof.
  unfold canonical.
  rewrite !andb_true_iff, orb_true_iff, !Z.ltb_lt, !Z.leb_le, Z.eqb_eq. tauto.
Qed.

Lemma max0_diff (e : Z) : Z.max 0 e - Z.max 0 (- e) = e.
Proof. lia. Qed.


Lemma is_ratio_rescale (a b m e e' : Z) :
  is_ratio a b m e → e' ≤ e →
  a * 2 ^ Z.max 0 (- e') = m * 2 ^ (e - e') * (b * 2 ^ Z.max 0 e').
Proof.
  unfold is_ratio. intros Hr Hle.
  apply (Z.mul_reg_r _ _ (2 ^ Z.max 0 (- e))); [apply Z.pow_nonzero; lia|].
  replace (a * 2 ^ Z.max 0 (- e') * 2 ^ Z.max 0 (- e))
    with (a * 2 ^ Z.max 0 (- e) * 2 ^ Z.max 0 (- e')) by ring.
  rewrite Hr.
  replace (m * b * 2 ^ Z.max 0 e * 2 ^ Z.max 0 (- e'))
    with (m * b * 2 ^ (Z.max 0 e + Z.max 0 (- e')))
    by (rewrite Z.pow_add_r by lia; ring).
  replace (m * 2 ^ (e - e') * (b * 2 ^ Z.max 0 e') * 2 ^ Z.max 0 (- e))
    with (m * b * 2 ^ ((e - e') + Z.max 0 e' + Z.max 0 (- e)))
    by (rewrite !Z.pow_add_r by lia; ring).
  f_equal. f_equal. lia.
Qed.

Lemma is_ratio_log2 (a b m e : Z) :
  0 < a → 0 < b → 0 < m → is_ratio a b m e →
  Z.log2 m + e ≤ Z.log2 a - Z.log2 b ≤ Z.log2 m + e + 1.
Proof.
  unfold is_ratio. intros Ha Hb Hm Hr.
  assert (Hl : Z.log2 (a * 2 ^ Z.max 0 (- e)) = Z.log2 (m * b * 2 ^ Z.max 0 e))
    by (rewrite Hr; reflexivity).
  rewrite !Z.log2_mul_pow2 in Hl by lia.
  pose proof (Z.log2_mul_below m b Hm Hb).
  pose proof (Z.log2_mul_above m b ltac:(lia) ltac:(lia)).
  lia.
Qed.

Lemma round_ratio_exact (neg : bool) (m e a b : Z) :
  canonical m e = true → 0 < a → 0 < b → is_ratio a b m e →
  round_ratio neg a b = Binary neg m e.
Proof.
  intros Hc Ha Hb Hr. apply canonical_spec in Hc as (Hm & He & Hnorm).
  pose proof (is_ratio_log2 a b m e Ha Hb ltac:(lia) Hr) as HL.
  unfold round_ratio.
  set (e1 := Z.max (Z.log2 a - Z.log2 b - 53) (-1074)).
  assert (Hlm : Z.log2 m ≤ 52).
  { apply Z.lt_succ_r. apply Z.log2_lt_pow2; lia. }
  assert (He1 : e1 = e ∨ (e1 = e - 1 ∧ 2 ^ 52 ≤ m)).
  { destruct Hnorm as [Hn | Hsub].
    - assert (Z.log2 m = 52).
      { apply Z.le_antisymm; [exact Hlm|]. apply Z.log2_le_pow2; [lia | exact Hn]. }
      unfold e1. lia.
    - left. unfold e1. lia. }
  assert (Hq1 : a * 2 ^ Z.max 0 (- e1) / (b * 2 ^ Z.max 0 e1) = m * 2 ^ (e - e1)).
  { rewrite (is_ratio_rescale a b m e e1 Hr) by lia.
    apply Z.div_mul. apply Z.neq_mul_0. split; [lia | apply Z.pow_nonzero; lia]. }
  rewrite Hq1.
  assert (Hfinal : (if 2 ^ 53 <=? m * 2 ^ (e - e1) then e1 + 1 else e1) = e).
  { destruct He1 as [-> | [-> Hn]].
    - rewrite Z.sub_diag. change (2 ^ 0) with 1. rewrite Z.mul_1_r.
      destruct (Z.leb_spec (2 ^ 53) m); lia.
    - replace (e - (e - 1)) with 1 by lia. change (2 ^ 1) with 2.
      change (2 ^ 53) with (2 * 2 ^ 52).
      destruct (Z.leb_spec (2 * 2 ^ 52) (m * 2)); lia. }
  rewrite Hfinal.
  pose proof (is_ratio_rescale a b m e e Hr ltac:(lia)) as Hexact.
  rewrite Z.sub_diag in Hexact. change (2 ^ 0) with 1 in Hexact. rewrite Z.mul_1_r in Hexact.
  assert (Hden : 0 < b * 2 ^ Z.max 0 e).
  { apply Z.mul_pos_pos; [lia | apply Z.pow_pos_nonneg; lia]. }
  rewrite Hexact, Z.div_mul, Z_mod_mult by lia.
  cbv zeta.
  destruct (Z.ltb_spec (2 * 0) (b * 2 ^ Z.max 0 e)); [|lia].
  destruct (Z.eqb_spec m 0); [lia|].
  destruct (Z.eqb_spec m (2 ^ 53)); [lia|].
  destruct (Z.ltb_spec 971 e); [lia|]. reflexivity.
Qed.

Lemma digit_cases (d : Z) :
  0 ≤ d < 10 →
  d = 0 ∨ d = 1 ∨ d = 2 ∨ d = 3 ∨ d = 4 ∨ d = 5 ∨ d = 6 ∨ d = 7 ∨ d = 8 ∨ d = 9.
Proof. lia. Qed.

Lemma digit_char_spec (d : Z) :
  0 ≤ d < 10 → is_digit (digit_char d) = true ∧ digit_value (digit_char d) = d.
Proof.
  intros Hd.
  destruct (digit_cases d Hd) as [-> | [-> | [-> | [-> | [-> | [-> | [-> | [-> | [-> | ->]]]]]]]]];
    split; reflexivity.
Qed.

Lemma is_digit_value (c : ascii) : is_digit c = true → 0 ≤ digit_value c < 10.
Proof.
  unfold is_digit, digit_value. rewrite andb_true_iff, !N.leb_le. lia.
Qed.

Lemma digits_value_snoc (ds : chars) (c : ascii) :
  digits_value (ds ++ [c]) = 10 * digits_value ds + digit_value c.
Proof. unfold digits_value. rewrite fold_left_app. reflexivity. Qed.

Lemma digits_value_app (ds ds' : chars) :
  digits_value (ds ++ ds') = digits_value ds * 10 ^ Z.of_nat (length ds') + digits_value ds'.
Proof.
  induction ds' as [|c ds' IH] using rev_ind.
  - rewrite app_nil_r. simpl. change (digits_value []) with 0. lia.
  - rewrite app_assoc, !digits_value_snoc, IH, length_app. simpl length.
    rewrite Nat2Z.inj_add, Z.pow_add_r by lia. change (10 ^ Z.of_nat 1) with 10. ring.
Qed.

Lemma digits_fuel_spec (fuel : nat) (n : Z) :
  0 ≤ n < 2 ^ Z.of_nat fuel →
  forallb is_digit (digits_fuel fuel n) = true ∧ digits_value (digits_fuel fuel n) = n.
Proof.
  revert n. induction fuel as [|fuel IH]; intros n Hn.
  - change (2 ^ Z.of_nat 0) with 1 in Hn. assert (n = 0) as -> by lia. split; reflexivity.
  - simpl digits_fuel. destruct (Z.ltb_spec n 10) as [Hlt|Hge].
    + destruct (digit_char_spec n ltac:(lia)) as [Hd Hv]. simpl. rewrite Hd.
      split; [reflexivity|]. unfold digits_value. simpl. rewrite Hv. reflexivity.
    + assert (Hdiv : 0 ≤ n / 10 < 2 ^ Z.of_nat fuel).
      { rewrite Nat2Z.inj_succ, Z.pow_succ_r in Hn by lia.
        split; [apply Z.div_pos; lia|].
        apply Z.div_lt_upper_bound; lia. }
      destruct (IH (n / 10) Hdiv) as [Hall Hval].
      destruct (digit_char_spec (n mod 10) (Z.mod_pos_bound n 10 ltac:(lia))) as [Hd Hv].
      split.
      * rewrite forallb_app, Hall. simpl. rewrite Hd. reflexivity.
      * rewrite digits_value_snoc, Hval, Hv. symmetry. apply Z.div_mod. lia.
Qed.

Lemma digits_of_spec (n : Z) :
  0 ≤ n →
  forallb is_digit (digits_of n) = true ∧ digits_value (digits_of n) = n
  ∧ digits_of n ≠ [].
Proof.
  intros Hn. unfold digits_of.
  assert (Hb : 0 ≤ n < 2 ^ Z.of_nat (S (Z.to_nat (Z.log2 n)))).
  { split; [exact Hn|]. rewrite Nat2Z.inj_succ, Z2Nat.id by apply Z.log2_nonneg.
    destruct (Z.eq_dec n 0) as [->|Hne]; [reflexivity|].
    apply Z.log2_spec. lia. }
  destruct (digits_fuel_spec _ n Hb) as [H1 H2]. split; [exact H1|]. split; [exact H2|].
  simpl. destruct (n <? 10); [discriminate|]. intros Happ.
  apply app_eq_nil in Happ as [_ Habs]. discriminate.
Qed.

(** Zeros at the two ends *)

Lemma drop_zeros_zeros (j : nat) (ds : chars) :
  drop_zeros (repeat "0"%char j ++ ds) = drop_zeros ds.
Proof. induction j as [|j IH]; [reflexivity | exact IH]. Qed.

Lemma drop_zeros_head (c : ascii) (ds : chars) :
  Ascii.eqb c "0" = false → drop_zeros (c :: ds) = c :: ds.
Proof. intros H. simpl. rewrite H. reflexivity. Qed.

Lemma drop_zeros_split (ds : chars) :
  ∃ j, ds = repeat "0"%char j ++ drop_zeros ds
       ∧ match drop_zeros ds with c :: _ => Ascii.eqb c "0" = false | [] => True end.
Proof.
  induction ds as [|c ds (j & Heq & Hhead)]; [exists 0%nat; split; [reflexivity | exact I]|].
  simpl. destruct (Ascii.eqb_spec c "0") as [->|Hne].
  - exists (S j). split; [simpl; f_equal; exact Heq | exact Hhead].
  - exists 0%nat. split; [reflexivity|]. apply Ascii.eqb_neq. exact Hne.
Qed.

Lemma rev_zeros (j : nat) : rev (repeat "0"%char j) = repeat "0"%char j.
Proof.
  induction j as [|j IH]; [reflexivity|]. simpl. rewrite IH.
  change ("0"%char :: repeat "0"%char j) with (repeat "0"%char (S j)).
  rewrite <- repeat_cons. reflexivity.
Qed.

Lemma digits_value_zeros (j : nat) (ds : chars) :
  digits_value (repeat "0"%char j ++ ds) = digits_value ds.
Proof.
  induction j as [|j IH]; [reflexivity|].
  simpl. unfold digits_value in *. simpl. exact IH.
Qed.

Lemma digits_value_trailing (ds : chars) (j : nat) :
  digits_value (ds ++ repeat "0"%char j) = digits_value ds * 10 ^ Z.of_nat j.
Proof.
  rewrite digits_value_app, repeat_length.
  rewrite <- (app_nil_r (repeat _ j)), digits_value_zeros.
  change (digits_value []) with 0. lia.
Qed.

(** What [canon] returns *)
Lemma canon_spec (ds : chars) (e : Z) :
  ∃ i j,
    ds = repeat "0"%char i ++ (canon ds e).1 ++ repeat "0"%char j
    ∧ (canon ds e).2 = e + Z.of_nat j
    ∧ match (canon ds e).1 with c :: _ => Ascii.eqb c "0" = false | [] => True end
    ∧ match rev (canon ds e).1 with c :: _ => Ascii.eqb c "0" = false | [] => True end.
Proof.
  unfold canon. simpl.
  destruct (drop_zeros_split ds) as (i & Hds & Hhead).
  set (d1 := drop_zeros ds) in *.
  destruct (drop_zeros_split (rev d1)) as (j & Hrev & Hlast).
  set (d2r := drop_zeros (rev d1)) in *.
  assert (Hd1 : d1 = rev d2r ++ repeat "0"%char j).
  { rewrite <- (rev_involutive d1), Hrev, rev_app_distr, rev_zeros. reflexivity. }
  exists i, j. split; [|split; [|split]].
  - rewrite <- Hd1. exact Hds.
  - f_equal. rewrite Hd1 at 1. rewrite length_app, repeat_length. lia.
  - destruct (rev d2r) as [|c r] eqn:Hr; [exact I|].
    rewrite Hd1 in Hhead. exact Hhead.
  - rewrite rev_involutive. exact Hlast.
Qed.

Lemma is_canonical_spec (ds : chars) :
  is_canonical ds = true ↔
  forallb is_digit ds = true
  ∧ (∃ c r, ds = c :: r ∧ Ascii.eqb c "0" = false)
  ∧ (∃ c r, rev ds = c :: r ∧ Ascii.eqb c "0" = false).
Proof.
  unfold is_canonical. rewrite !andb_true_iff. split.
  - intros [[Hall Hh] Hl]. split; [exact Hall|]. split.
    + destruct ds as [|c r]; [discriminate|]. exists c, r. split; [reflexivity|].
      apply negb_true_iff, Hh.
    + destruct (rev ds) as [|c r]; [discriminate|]. exists c, r. split; [reflexivity|].
      apply negb_true_iff, Hl.
  - intros (Hall & (c & r & -> & Hc) & (c' & r' & Hrev & Hc')).
    rewrite Hrev. split; [split; [exact Hall|]|]; apply negb_true_iff; assumption.
Qed.

(** A canonical digit string between zeros *)
Lemma canon_padded (ds : chars) (i j : nat) (e : Z) :
  is_canonical ds = true →
  canon (repeat "0"%char i ++ ds ++ repeat "0"%char j) e = (ds, e + Z.of_nat j).
Proof.
  intros Hc. apply is_canonical_spec in Hc as (_ & (c & r & Hds & Hc) & (c' & r' & Hrev & Hc')).
  unfold canon. rewrite drop_zeros_zeros.
  assert (Hd1 : drop_zeros (ds ++ repeat "0"%char j) = ds ++ repeat "0"%char j).
  { rewrite Hds. apply drop_zeros_head, Hc. }
  rewrite Hd1, rev_app_distr, rev_zeros, drop_zeros_zeros, Hrev.
  rewrite drop_zeros_head by exact Hc'. rewrite <- Hrev, rev_involutive.
  f_equal. f_equal. rewrite length_app, repeat_length. lia.
Qed.

Lemma canon_canonical (ds : chars) (e : Z) :
  is_canonical ds = true → canon ds e = (ds, e).
Proof.
  intros Hc. pose proof (canon_padded ds 0 0 e Hc) as H.
  simpl in H. rewrite app_nil_r, Z.add_0_r in H. exact H.
Qed.

(** The canonical form of digits that are not all zero *)
Lemma canon_positive (ds : chars) (e : Z) :
  forallb is_digit ds = true → 0 < digits_value ds →
  is_canonical (canon ds e).1 = true
  ∧ ∃ j, (canon ds e).2 = e + Z.of_nat j
         ∧ digits_value ds = digits_value (canon ds e).1 * 10 ^ Z.of_nat j.
Proof.
  intros Hall Hpos.
  destruct (canon_spec ds e) as (i & j & Hds & He & Hhead & Hlast).
  set (dc := (canon ds e).1) in *.
  assert (Hval : digits_value ds = digits_value dc * 10 ^ Z.of_nat j).
  { rewrite Hds at 1. rewrite digits_value_zeros, digits_value_trailing. reflexivity. }
  assert (Hne : dc ≠ []).
  { intros Hnil. rewrite Hnil in Hval. change (digits_value []) with 0 in Hval. lia. }
  split; [|exists j; split; assumption].
  apply is_canonical_spec. split; [|split].
  - rewrite Hds, !forallb_app in Hall.
    apply andb_prop in Hall as [_ Hall]. apply andb_prop in Hall as [Hall _]. exact Hall.
  - destruct dc as [|c r]; [contradiction|]. eauto.
  - destruct (rev dc) as [|c r] eqn:Hr; [|eauto].
    apply (f_equal (@rev ascii)) in Hr. rewrite rev_involutive in Hr. contradiction.
Qed.

Lemma number_eqb_eq (x y : number) : number_eqb x y = true → x = y.
Proof.
  destruct x as [a|a m e| | |], y as [b|b m' e'| | |]; simpl; try discriminate; try reflexivity.
  - intros H. apply Bool.eqb_prop in H as ->. reflexivity.
  - rewrite !andb_true_iff, !Z.eqb_eq. intros [[H -> ] ->].
    apply Bool.eqb_prop in H as ->. reflexivity.
Qed.

Lemma number_of_decimal_canonical (neg : bool) (ds : chars) (e : Z) :
  is_canonical ds = true →
  number_of_decimal neg ds e
  = round_ratio neg (digits_value ds * 10 ^ Z.max 0 e) (10 ^ Z.max 0 (- e)).
Proof.
  intros Hc. unfold number_of_decimal. rewrite (canon_canonical ds e Hc).
  apply is_canonical_spec in Hc as (_ & (c & r & -> & _) & _). reflexivity.
Qed.

Lemma number_of_decimal_padded (neg : bool) (ds : chars) (i j : nat) (e : Z) :
  is_canonical ds = true →
  number_of_decimal neg (repeat "0"%char i ++ ds ++ repeat "0"%char j) e
  = number_of_decimal neg ds (e + Z.of_nat j).
Proof.
  intros Hc. unfold number_of_decimal.
  rewrite (canon_padded ds i j e Hc), (canon_canonical ds _ Hc). reflexivity.
Qed.

(** The exact decimal expansion reads back. *)
Lemma exact_decimal_reads (neg : bool) (m e : Z) :
  canonical m e = true →
  is_canonical (exact_decimal m e).1 = true
  ∧ number_of_decimal neg (exact_decimal m e).1 (exact_decimal m e).2 = Binary neg m e.
Proof.
  intros Hc. pose proof Hc as Hcan. apply canonical_spec in Hc as (Hm & He & _).
  unfold exact_decimal. destruct (Z.leb_spec 0 e) as [Hpos|Hneg].
  - assert (Hv : 0 < m * 2 ^ e) by (apply Z.mul_pos_pos; [lia | apply Z.pow_pos_nonneg; lia]).
    destruct (digits_of_spec (m * 2 ^ e) ltac:(lia)) as (Hall & Hval & _).
    destruct (canon_positive (digits_of (m * 2 ^ e)) 0 Hall ltac:(lia))
      as (Hcanon & j & Hj & Hvj).
    split; [exact Hcanon|].
    rewrite number_of_decimal_canonical by exact Hcanon.
    apply round_ratio_exact; [exact Hcan | | |].
    + apply Z.mul_pos_pos; [|apply Z.pow_pos_nonneg; lia].
      rewrite Hval in Hvj.
      assert (0 < 10 ^ Z.of_nat j) by (apply Z.pow_pos_nonneg; lia). nia.
    + apply Z.pow_pos_nonneg; lia.
    + unfold is_ratio. rewrite Hj. rewrite Z.add_0_l.
      replace (Z.max 0 (Z.of_nat j)) with (Z.of_nat j) by lia.
      replace (Z.max 0 (- Z.of_nat j)) with 0 by lia.
      replace (Z.max 0 (- e)) with 0 by lia.
      replace (Z.max 0 e) with e by lia.
      change (10 ^ 0) with 1. change (2 ^ 0) with 1.
      rewrite <- Hvj, Hval. ring.
  - set (k := - e) in *. assert (Hk : 0 < k) by lia.
    assert (Hv : 0 < m * 5 ^ k) by (apply Z.mul_pos_pos; [lia | apply Z.pow_pos_nonneg; lia]).
    destruct (digits_of_spec (m * 5 ^ k) ltac:(lia)) as (Hall & Hval & _).
    destruct (canon_positive (digits_of (m * 5 ^ k)) e Hall ltac:(lia))
      as (Hcanon & j & Hj & Hvj).
    split; [exact Hcanon|].
    rewrite number_of_decimal_canonical by exact Hcanon.
    set (dv := digits_value (canon (digits_of (m * 5 ^ k)) e).1) in *.
    set (ec := (canon (digits_of (m * 5 ^ k)) e).2) in *.
    assert (H10 : 0 < 10 ^ Z.of_nat j) by (apply Z.pow_pos_nonneg; lia).
    assert (Hdv : 0 < dv) by (rewrite Hval in Hvj; nia).
    apply round_ratio_exact; [exact Hcan | | |].
    + apply Z.mul_pos_pos; [exact Hdv | apply Z.pow_pos_nonneg; lia].
    + apply Z.pow_pos_nonneg; lia.
    + unfold is_ratio. rewrite (Z.max_l 0 e) by lia. rewrite (Z.max_r 0 (- e)) by lia.
      change (2 ^ 0) with 1. rewrite Z.mul_1_r. fold k.
      apply (Z.mul_reg_r _ _ (10 ^ Z.of_nat j)); [lia|].
      replace (dv * 10 ^ Z.max 0 ec * 2 ^ k * 10 ^ Z.of_nat j)
        with (dv * 10 ^ Z.of_nat j * 2 ^ k * 10 ^ Z.max 0 ec) by ring.
      rewrite <- Hvj, Hval.
      replace (m * 5 ^ k * 2 ^ k) with (m * 10 ^ k)
        by (change 10 with (5 * 2); rewrite Z.pow_mul_l; ring).
      rewrite <- !Z.mul_assoc, <- !Z.pow_add_r by lia.
      f_equal. f_equal. lia.
Qed.

Lemma candidate_reads (neg : bool) (m e n0 k : Z) (d : chars * Z) :
  candidate neg m e n0 k = Some d → reads_as (Binary neg m e) neg d = true.
Proof.
  unfold candidate. cbv zeta.
  destruct (reads_as _ neg (canon (digits_of (_ / _)) _)) eqn:Hlo;
    destruct (reads_as _ neg (canon (digits_of (_ / _ + 1)) _)) eqn:Hhi; simpl;
    try discriminate.
  - destruct (_ <? _); [intros [= <-]; exact Hlo|].
    destruct (_ <? _); [intros [= <-]; exact Hhi|].
    destruct (Z.even _); intros [= <-]; assumption.
  - intros [= <-]. exact Hlo.
  - intros [= <-]. exact Hhi.
Qed.

Lemma first_candidate_reads (neg : bool) (m e n0 : Z) (ks : list Z) (d : chars * Z) :
  first_candidate (candidate neg m e n0) ks = Some d →
  reads_as (Binary neg m e) neg d = true.
Proof.
  induction ks as [|k ks IH]; simpl; [discriminate|].
  destruct (candidate neg m e n0 k) as [d'|] eqn:Hk; [|exact IH].
  intros [= <-]. exact (candidate_reads _ _ _ _ _ _ Hk).
Qed.

(** The digits [Number::toString] chooses read back as the number. *)
Lemma shortest_reads (neg : bool) (m e : Z) :
  canonical m e = true →
  is_canonical (shortest neg m e).1 = true
  ∧ number_of_decimal neg (shortest neg m e).1 (shortest neg m e).2 = Binary neg m e.
Proof.
  intros Hc. unfold shortest. cbv zeta.
  destruct (first_candidate _ _) as [d|] eqn:Hfound; simpl.
  - apply first_candidate_reads in Hfound. unfold reads_as in Hfound.
    apply andb_prop in Hfound as [H1 H2]. split; [exact H1 | apply number_eqb_eq, H2].
  - apply exact_decimal_reads, Hc.
Qed.

(** Reading digits *)


Lemma read_digits_app (ds rest : chars) :
  forallb is_digit ds = true → stops_digits rest →
  read_digits (ds ++ rest) = (ds, rest).
Proof.
  intros Hall Hstop. induction ds as [|c ds IH]; simpl in *.
  - destruct rest as [|c r]; [reflexivity|]. simpl. rewrite Hstop. reflexivity.
  - apply andb_prop in Hall as [Hc Hall]. rewrite Hc, (IH Hall). reflexivity.
Qed.

Lemma ends_token_stops (rest : chars) : ends_token rest = true → stops_digits rest.
Proof.
  destruct rest as [|c r]; [intros _; exact I|]. simpl.
  each_char c; simpl; first [discriminate | reflexivity].
Qed.

Lemma parse_fraction_none (rest : chars) :
  ends_token rest = true → parse_fraction rest = Some ([], rest).
Proof.
  destruct rest as [|c r]; [reflexivity|]. simpl.
  each_char c; simpl; first [discriminate | reflexivity].
Qed.

Lemma parse_exponent_part_none (rest : chars) :
  ends_token rest = true → parse_exponent_part rest = Some (0, rest).
Proof.
  destruct rest as [|c r]; [reflexivity|]. simpl.
  each_char c; simpl; first [discriminate | reflexivity].
Qed.

Lemma parse_fraction_digits (fp rest : chars) :
  forallb is_digit fp = true → fp ≠ [] → stops_digits rest →
  parse_fraction ("."%char :: fp ++ rest) = Some (fp, rest).
Proof.
  intros Hall Hne Hstop. simpl. rewrite (read_digits_app fp rest Hall Hstop).
  destruct fp; [contradiction | reflexivity].
Qed.

Lemma parse_exponent_chars (x : Z) (rest : chars) :
  ends_token rest = true →
  parse_exponent_part ("e"%char :: exponent_chars x ++ rest) = Some (x, rest).
Proof.
  intros Hrest. simpl. unfold parse_exponent, exponent_chars.
  destruct (digits_of_spec (Z.abs x) (Z.abs_nonneg x)) as (Hall & Hval & Hne).
  destruct (Z.ltb_spec x 0); simpl;
    rewrite (read_digits_app _ rest Hall (ends_token_stops rest Hrest));
    (destruct (digits_of (Z.abs x)) as [|c r] eqn:Hd; [contradiction|]);
    rewrite Hval; do 2 f_equal; lia.
Qed.

Lemma parse_unsigned_parts (neg : bool) (ip r1 fp r2 r3 : chars) (x : Z) :
  forallb is_digit ip = true → ip ≠ [] → leading_zero ip = false →
  stops_digits r1 →
  parse_fraction r1 = Some (fp, r2) →
  parse_exponent_part r2 = Some (x, r3) →
  parse_unsigned neg (ip ++ r1)
  = Some (number_of_decimal neg (ip ++ fp) (x - Z.of_nat (length fp)), r3).
Proof.
  intros Hall Hne Hlz Hstop Hfrac Hexp. unfold parse_unsigned.
  rewrite (read_digits_app ip r1 Hall Hstop), Hlz, Hfrac, Hexp.
  destruct ip; [contradiction | reflexivity].
Qed.

Lemma zeros_digits (j : Z) : forallb is_digit (zeros j) = true.
Proof. unfold zeros. induction (Z.to_nat j) as [|n IH]; [reflexivity | exact IH]. Qed.

Lemma stops_at_point (r : chars) : stops_digits ("."%char :: r).
Proof. reflexivity. Qed.

Lemma stops_at_e (r : chars) : stops_digits ("e"%char :: r).
Proof. reflexivity. Qed.

Lemma parse_fraction_at_e (r : chars) :
  parse_fraction ("e"%char :: r) = Some ([], "e"%char :: r).
Proof. reflexivity. Qed.

Lemma leading_zero_canonical (ds tail : chars) :
  is_canonical ds = true → leading_zero (ds ++ tail) = false.
Proof.
  intros Hc. apply is_canonical_spec in Hc as (_ & (c & r & -> & Hc) & _).
  simpl. destruct (r ++ tail); [reflexivity | exact Hc].
Qed.

Lemma number_of_decimal_leading (neg : bool) (ds : chars) (i : nat) (e : Z) :
  is_canonical ds = true →
  number_of_decimal neg (repeat "0"%char i ++ ds) e = number_of_decimal neg ds e.
Proof.
  intros Hc. pose proof (number_of_decimal_padded neg ds i 0 e Hc) as H.
  simpl in H. rewrite app_nil_r, Z.add_0_r in H. exact H.
Qed.

(** What [format_decimal] writes is read as the decimal it was given. *)
Lemma parse_unsigned_format (neg : bool) (ds : chars) (pc : Z) (rest : chars) :
  is_canonical ds = true → ends_token rest = true →
  parse_unsigned neg (format_decimal ds pc ++ rest)
  = Some (number_of_decimal neg ds pc, rest).
Proof.
  intros Hc Hrest. pose proof Hc as Hcan.
  apply is_canonical_spec in Hc as (Hall & (c0 & r0 & Hds & Hc0) & _).
  pose proof (ends_token_stops rest Hrest) as Hstop.
  unfold format_decimal. cbv zeta.
  set (k := Z.of_nat (length ds)). set (n := pc + k).
  assert (Hk : 0 < k) by (unfold k; rewrite Hds; simpl length; lia).
  destruct ((k <=? n) && (n <=? 21)) eqn:H6.
  { (* digits, then zeros *)
    apply andb_prop in H6 as [Hkn _]. apply Z.leb_le in Hkn.
    rewrite (parse_unsigned_parts neg (ds ++ zeros (n - k)) rest [] rest rest 0).
    - rewrite app_nil_r. simpl length. rewrite Z.sub_0_r.
      pose proof (number_of_decimal_padded neg ds 0 (Z.to_nat (n - k)) 0 Hcan) as Hpad.
      simpl in Hpad. unfold zeros. rewrite Hpad. f_equal. f_equal. f_equal. lia.
    - rewrite forallb_app, Hall, zeros_digits. reflexivity.
    - rewrite Hds. discriminate.
    - apply leading_zero_canonical, Hcan.
    - exact Hstop.
    - apply parse_fraction_none, Hrest.
    - apply parse_exponent_part_none, Hrest. }
  destruct ((0 <? n) && (n <=? 21)) eqn:H7.
  { (* a point inside the digits *)
    apply andb_prop in H7 as [Hn H21]. apply Z.ltb_lt in Hn.
    assert (Hnk : n < k).
    { apply andb_false_iff in H6 as [H|H]; [apply Z.leb_gt in H; exact H|].
      congruence. }
    set (ip := take (Z.to_nat n) ds). set (fp := drop (Z.to_nat n) ds).
    assert (Hsplit : ip ++ fp = ds) by apply take_drop.
    assert (Hlen : Z.of_nat (length fp) = k - n).
    { unfold fp, k. rewrite length_drop. lia. }
    rewrite <- app_assoc. change (("."%char :: fp) ++ rest) with ("."%char :: fp ++ rest).
    rewrite <- Hsplit, forallb_app in Hall. apply andb_prop in Hall as [Hip Hfp].
    rewrite (parse_unsigned_parts neg ip ("."%char :: fp ++ rest) fp rest rest 0).
    - rewrite Hsplit, Hlen. f_equal. f_equal. f_equal. lia.
    - exact Hip.
    - unfold ip. rewrite Hds. destruct (Z.to_nat n) eqn:Hz; [lia | discriminate].
    - unfold ip. rewrite Hds. destruct (Z.to_nat n) eqn:Hz; [lia|]. simpl.
      destruct (take _ r0); [reflexivity | exact Hc0].
    - apply stops_at_point.
    - apply parse_fraction_digits; [exact Hfp | | exact Hstop].
      intros Hnil. rewrite Hnil in Hlen. simpl in Hlen. lia.
    - apply parse_exponent_part_none, Hrest. }
  destruct ((-6 <? n) && (n <=? 0)) eqn:H8.
  { (* zero, point, zeros, digits *)
    apply andb_prop in H8 as [_ Hn0]. apply Z.leb_le in Hn0.
    change (("0"%char :: "."%char :: zeros (- n) ++ ds) ++ rest)
      with (["0"%char] ++ "."%char :: (zeros (- n) ++ ds) ++ rest).
    rewrite (parse_unsigned_parts neg ["0"%char] _ (zeros (- n) ++ ds) rest rest 0).
    - change (["0"%char] ++ zeros (- n) ++ ds)
        with (repeat "0"%char (S (Z.to_nat (- n))) ++ ds).
      rewrite number_of_decimal_leading by exact Hcan. f_equal. f_equal. f_equal.
      unfold zeros. rewrite length_app, repeat_length. fold k. lia.
    - reflexivity.
    - discriminate.
    - reflexivity.
    - apply stops_at_point.
    - apply parse_fraction_digits; [| | exact Hstop].
      + rewrite forallb_app, zeros_digits, Hall. reflexivity.
      + rewrite Hds. intros Hnil. apply app_eq_nil in Hnil as [_ Hnil]. discriminate.
    - apply parse_exponent_part_none, Hrest. }
  (* exponent notation *)
  subst ds. destruct r0 as [|c1 r1].
  - change ((c0 :: "e"%char :: exponent_chars (n - 1)) ++ rest)
      with ([c0] ++ "e"%char :: exponent_chars (n - 1) ++ rest).
    rewrite (parse_unsigned_parts neg [c0] ("e"%char :: exponent_chars (n - 1) ++ rest) []
               ("e"%char :: exponent_chars (n - 1) ++ rest) rest (n - 1)).
    + rewrite app_nil_r. f_equal. f_equal. f_equal. unfold n, k. simpl. lia.
    + exact Hall.
    + discriminate.
    + reflexivity.
    + apply stops_at_e.
    + apply parse_fraction_at_e.
    + apply parse_exponent_chars, Hrest.
  - change ((c0 :: "."%char :: (c1 :: r1) ++ "e"%char :: exponent_chars (n - 1)) ++ rest)
      with ([c0] ++ "."%char :: ((c1 :: r1) ++ "e"%char :: exponent_chars (n - 1)) ++ rest).
    rewrite <- (app_assoc (c1 :: r1)).
    change (("e"%char :: exponent_chars (n - 1)) ++ rest)
      with ("e"%char :: exponent_chars (n - 1) ++ rest).
    simpl in Hall. apply andb_prop in Hall as [H0 H1].
    rewrite (parse_unsigned_parts neg [c0]
               ("."%char :: (c1 :: r1) ++ "e"%char :: exponent_chars (n - 1) ++ rest)
               (c1 :: r1) ("e"%char :: exponent_chars (n - 1) ++ rest) rest (n - 1)).
    + f_equal. f_equal. f_equal. unfold n, k. simpl length. lia.
    + simpl. rewrite H0. reflexivity.
    + discriminate.
    + reflexivity.
    + apply stops_at_point.
    + apply parse_fraction_digits; [exact H1 | discriminate | apply stops_at_e].
    + apply parse_exponent_chars, Hrest.
Qed.

Lemma parse_unsigned_head (neg : bool) (s : chars) (r : number * chars) :
  parse_unsigned neg s = Some r → ∃ c t, s = c :: t ∧ is_digit c = true.
Proof.
  unfold parse_unsigned. destruct s as [|c t]; [discriminate|]. simpl.
  destruct (is_digit c) eqn:Hc; [eauto | discriminate].
Qed.

Lemma digit_not_minus (c : ascii) : is_digit c = true → Ascii.eqb c "-" = false.
Proof. each_char c; simpl; first [discriminate | reflexivity]. Qed.


Theorem parse_number_to_chars (x : number) (rest : chars) :
  json_number x = true → valid_number x = true → ends_token rest = true →
  parse_number (number_to_chars x ++ rest) = Some (x, rest).
Proof.
  intros Hj Hv Hrest. destruct x as [[]|neg m e| | |]; try discriminate.
  - simpl. pose proof (parse_unsigned_parts false ["0"%char] rest [] rest rest 0) as Hp.
    simpl app in Hp. rewrite Hp; auto using ends_token_stops, parse_fraction_none,
      parse_exponent_part_none; discriminate.
  - simpl in Hv. destruct (shortest_reads neg m e Hv) as [Hcan Hread].
    unfold number_to_chars. destruct (shortest neg m e) as [ds pc]. simpl in Hcan, Hread.
    pose proof (parse_unsigned_format neg ds pc rest Hcan Hrest) as Hparse.
    rewrite Hread in Hparse. destruct neg.
    + simpl. exact Hparse.
    + simpl app. destruct (parse_unsigned_head _ _ _ Hparse) as (c & t & Heq & Hc).
      rewrite Heq in *. simpl. rewrite (digit_not_minus c Hc). exact Hparse.
Qed.

(** A number is written with a digit or a minus sign first. *)
Lemma number_to_chars_head (x : number) :
  json_number x = true → valid_number x = true →
  ∃ c cs, number_to_chars x = c :: cs ∧ starts_number c = true.
Proof.
  intros Hj Hv. pose proof (parse_number_to_chars x [] Hj Hv eq_refl) as Hread.
  rewrite app_nil_r in Hread.
  destruct (number_to_chars x) as [|c cs]; [discriminate|].
  exists c, cs. split; [reflexivity|].
  unfold parse_number in Hread. unfold starts_number.
  destruct (Ascii.eqb c "-"); [reflexivity|].
  apply parse_unsigned_head in Hread as (c' & t & [= <- <-] & Hc).
  rewrite Hc. reflexivity.
Qed.

(** Every literal denotes a double in its one form. *)

Lemma ratio_below (a b e k : Z) :
  0 < a → 0 < b → 0 ≤ k → Z.log2 a - Z.log2 b + 1 - e ≤ k →
  a * 2 ^ Z.max 0 (- e) / (b * 2 ^ Z.max 0 e) < 2 ^ k.
Proof.
  intros Ha Hb Hk Hle.
  destruct (Z.log2_spec a Ha) as [_ Hau]. destruct (Z.log2_spec b Hb) as [Hbl _].
  pose proof (Z.log2_nonneg a) as Hla. pose proof (Z.log2_nonneg b) as Hlb.
  set (x := Z.max 0 (- e)). set (y := Z.max 0 e).
  assert (Hx : 0 < 2 ^ x) by (apply Z.pow_pos_nonneg; lia).
  assert (Hy : 0 < 2 ^ y) by (apply Z.pow_pos_nonneg; lia).
  assert (Hpk : 0 < 2 ^ k) by (apply Z.pow_pos_nonneg; lia).
  apply Z.div_lt_upper_bound; [apply Z.mul_pos_pos; lia|].
  assert (H1 : a * 2 ^ x < 2 ^ Z.succ (Z.log2 a) * 2 ^ x)
    by (apply Z.mul_lt_mono_pos_r; assumption).
  assert (H2 : 2 ^ Z.succ (Z.log2 a) * 2 ^ x ≤ 2 ^ Z.log2 b * 2 ^ y * 2 ^ k).
  { rewrite <- !Z.pow_add_r by lia. apply Z.pow_le_mono_r; lia. }
  assert (H3 : 2 ^ Z.log2 b * 2 ^ y * 2 ^ k ≤ b * 2 ^ y * 2 ^ k).
  { apply Z.mul_le_mono_nonneg_r; [lia|]. apply Z.mul_le_mono_nonneg_r; lia. }
  lia.
Qed.

Lemma ratio_above (a b e k : Z) :
  0 < a → 0 < b → 0 ≤ k → k ≤ Z.log2 a - Z.log2 b - 1 - e →
  2 ^ k ≤ a * 2 ^ Z.max 0 (- e) / (b * 2 ^ Z.max 0 e).
Proof.
  intros Ha Hb Hk Hle.
  destruct (Z.log2_spec a Ha) as [Hal _]. destruct (Z.log2_spec b Hb) as [_ Hbu].
  pose proof (Z.log2_nonneg a) as Hla. pose proof (Z.log2_nonneg b) as Hlb.
  set (x := Z.max 0 (- e)). set (y := Z.max 0 e).
  assert (Hx : 0 < 2 ^ x) by (apply Z.pow_pos_nonneg; lia).
  assert (Hy : 0 < 2 ^ y) by (apply Z.pow_pos_nonneg; lia).
  assert (Hpk : 0 < 2 ^ k) by (apply Z.pow_pos_nonneg; lia).
  apply Z.div_le_lower_bound; [apply Z.mul_pos_pos; lia|].
  assert (H1 : b * 2 ^ y * 2 ^ k ≤ 2 ^ Z.succ (Z.log2 b) * 2 ^ y * 2 ^ k).
  { apply Z.mul_le_mono_nonneg_r; [lia|]. apply Z.mul_le_mono_nonneg_r; lia. }
  assert (H2 : 2 ^ Z.succ (Z.log2 b) * 2 ^ y * 2 ^ k ≤ 2 ^ Z.log2 a * 2 ^ x).
  { rewrite <- !Z.pow_add_r by lia. apply Z.pow_le_mono_r; lia. }
  assert (H3 : 2 ^ Z.log2 a * 2 ^ x ≤ a * 2 ^ x)
    by (apply Z.mul_le_mono_nonneg_r; lia).
  lia.
Qed.

Lemma ratio_halved (a b e : Z) :
  0 < a → 0 < b →
  2 ^ 53 ≤ a * 2 ^ Z.max 0 (- e) / (b * 2 ^ Z.max 0 e) →
  2 ^ 52 ≤ a * 2 ^ Z.max 0 (- (e + 1)) / (b * 2 ^ Z.max 0 (e + 1)).
Proof.
  intros Ha Hb Hq.
  assert (Hd : 0 < b * 2 ^ Z.max 0 e)
    by (apply Z.mul_pos_pos; [lia | apply Z.pow_pos_nonneg; lia]).
  assert (Hn : b * 2 ^ Z.max 0 e * 2 ^ 53 ≤ a * 2 ^ Z.max 0 (- e)).
  { etransitivity; [apply Z.mul_le_mono_nonneg_l; [lia | exact Hq]|].
    apply Z.mul_div_le. exact Hd. }
  apply Z.div_le_lower_bound;
    [apply Z.mul_pos_pos; [lia | apply Z.pow_pos_nonneg; lia]|].
  change (2 ^ 53) with (2 * 2 ^ 52) in Hn.
  destruct (Z.le_gt_cases 0 e) as [Hpos|Hneg].
  - replace (Z.max 0 (- (e + 1))) with 0 by lia.
    replace (Z.max 0 (- e)) with 0 in Hn by lia.
    replace (Z.max 0 (e + 1)) with (Z.succ e) by lia.
    replace (Z.max 0 e) with e in Hn by lia.
    rewrite Z.pow_succ_r by lia. lia.
  - replace (Z.max 0 (e + 1)) with 0 by lia.
    replace (Z.max 0 e) with 0 in Hn by lia.
    replace (Z.max 0 (- e)) with (Z.succ (- (e + 1))) in Hn by lia.
    replace (Z.max 0 (- (e + 1))) with (- (e + 1)) by lia.
    rewrite Z.pow_succ_r in Hn by lia. lia.
Qed.

Lemma round_ratio_valid (neg : bool) (a b : Z) :
  0 < a → 0 < b → valid_number (round_ratio neg a b) = true.
Proof.
  intros Ha Hb. unfold round_ratio.
  set (e1 := Z.max (Z.log2 a - Z.log2 b - 53) (-1074)).
  set (q1 := a * 2 ^ Z.max 0 (- e1) / (b * 2 ^ Z.max 0 e1)).
  set (e := if 2 ^ 53 <=? q1 then e1 + 1 else e1).
  set (num := a * 2 ^ Z.max 0 (- e)). set (den := b * 2 ^ Z.max 0 e).
  assert (Hden : 0 < den)
    by (apply Z.mul_pos_pos; [lia | apply Z.pow_pos_nonneg; lia]).
  assert (Hnum : 0 ≤ num)
    by (apply Z.mul_nonneg_nonneg; [lia | apply Z.pow_nonneg; lia]).
  assert (Hq : 0 ≤ num / den < 2 ^ 53 ∧ -1074 ≤ e ∧ (2 ^ 52 ≤ num / den ∨ e = -1074)).
  { split; [split; [apply Z.div_pos; lia|]|].
    - unfold num, den, e. destruct (Z.leb_spec (2 ^ 53) q1) as [Hbig|Hsmall].
      + apply ratio_below; [lia | lia | lia | unfold e1; lia].
      + exact Hsmall.
    - destruct (Z.max_spec (Z.log2 a - Z.log2 b - 53) (-1074)) as [[Hlt He1]|[Hge He1]];
        fold e1 in He1.
      + assert (Hsmall : q1 < 2 ^ 53)
          by (unfold q1; apply ratio_below; lia).
        unfold num, den, e. destruct (Z.leb_spec (2 ^ 53) q1); [lia|].
        split; [lia | right; exact He1].
      + assert (Hnormal : 2 ^ 52 ≤ q1)
          by (unfold q1; apply ratio_above; lia).
        unfold num, den, e. destruct (Z.leb_spec (2 ^ 53) q1) as [Hbig|Hsmall].
        * split; [lia|]. left. apply ratio_halved; assumption.
        * split; [lia|]. left. exact Hnormal. }
  destruct Hq as ((Hq0 & Hq53) & He & Hnorm).
  set (q := num / den) in *. set (r := num mod den).
  set (m := if 2 * r <? den then q
            else if den <? 2 * r then q + 1 else if Z.even q then q else q + 1).
  assert (Hm : m = q ∨ m = q + 1)
    by (unfold m; destruct (2 * r <? den), (den <? 2 * r), (Z.even q); auto).
  cbv zeta. destruct (Z.eqb_spec m 0) as [Hz|Hnz]; [reflexivity|].
  destruct (Z.eqb_spec m (2 ^ 53)) as [Htop|Hntop].
  - destruct (Z.ltb_spec 971 (e + 1)); [destruct neg; reflexivity|].
    simpl. apply canonical_spec. lia.
  - destruct (Z.ltb_spec 971 e); [destruct neg; reflexivity|].
    simpl. apply canonical_spec. lia.
Qed.

Lemma digits_value_nonneg (ds : chars) :
  forallb is_digit ds = true → 0 ≤ digits_value ds.
Proof.
  induction ds as [|c ds IH] using rev_ind; [intros _; reflexivity|].
  rewrite forallb_app, andb_true_iff. intros [Hds Hc]. simpl in Hc.
  rewrite andb_true_r in Hc. rewrite digits_value_snoc.
  pose proof (is_digit_value c Hc). specialize (IH Hds). lia.
Qed.

Lemma digits_value_head (c : ascii) (ds : chars) :
  forallb is_digit (c :: ds) = true → Ascii.eqb c "0" = false →
  0 < digits_value (c :: ds).
Proof.
  intros Hall Hc. simpl in Hall. apply andb_prop in Hall as [Hd Hds].
  change (c :: ds) with ([c] ++ ds). rewrite digits_value_app.
  pose proof (digits_value_nonneg ds Hds) as Hnn.
  assert (Hpos : 1 ≤ digits_value [c]).
  { revert Hd Hc. each_char c; simpl; first [discriminate | intros _ _; vm_compute; discriminate]. }
  assert (Hpow : 0 < 10 ^ Z.of_nat (length ds)) by (apply Z.pow_pos_nonneg; lia).
  nia.
Qed.

Lemma number_of_decimal_valid (neg : bool) (ds : chars) (e : Z) :
  forallb is_digit ds = true → valid_number (number_of_decimal neg ds e) = true.
Proof.
  intros Hall. unfold number_of_decimal.
  destruct (canon_spec ds e) as (i & j & Hds & _ & Hhead & _).
  destruct (canon ds e) as [dc ec]. simpl in *.
  destruct dc as [|c dc]; [reflexivity|].
  apply round_ratio_valid.
  - apply Z.mul_pos_pos; [|apply Z.pow_pos_nonneg; lia].
    apply digits_value_head; [|exact Hhead].
    rewrite Hds, !forallb_app in Hall.
    apply andb_prop in Hall as [_ Hall]. apply andb_prop in Hall as [Hall _]. exact Hall.
  - apply Z.pow_pos_nonneg; lia.
Qed.

Lemma read_digits_spec (s : chars) :
  forallb is_digit (read_digits s).1 = true.
Proof.
  induction s as [|c s IH]; [reflexivity|]. simpl.
  destruct (is_digit c) eqn:Hc; [|reflexivity].
  destruct (read_digits s) as [ds r]. simpl in *. rewrite Hc. exact IH.
Qed.

Lemma parse_fraction_spec (s : chars) (fp r : chars) :
  parse_fraction s = Some (fp, r) → forallb is_digit fp = true.
Proof.
  unfold parse_fraction. destruct s as [|c s]; [intros [= <- <-]; reflexivity|].
  destruct (Ascii.eqb c "."); [|intros [= <- <-]; reflexivity].
  pose proof (read_digits_spec s) as Hds. destruct (read_digits s) as [ds r'].
  destruct ds; [discriminate|]. intros [= <- <-]. exact Hds.
Qed.

(** What [JSON.parse] reads as a number is a double. *)
Lemma parse_number_valid (s r : chars) (x : number) :
  parse_number s = Some (x, r) → valid_number x = true.
Proof.
  assert (Hun : ∀ neg t, parse_unsigned neg t = Some (x, r) → valid_number x = true).
  { intros neg t. unfold parse_unsigned.
    pose proof (read_digits_spec t) as Hip. destruct (read_digits t) as [ip r1].
    destruct ip as [|c ip]; [discriminate|].
    destruct (leading_zero (c :: ip)); [discriminate|].
    destruct (parse_fraction r1) as [[fp r2]|] eqn:Hfp; [|discriminate].
    destruct (parse_exponent_part r2) as [[ex r3]|]; [|discriminate].
    intros [= <- <-]. apply number_of_decimal_valid.
    change (forallb is_digit ((c :: ip) ++ fp) = true).
    rewrite forallb_app. change (forallb is_digit (c :: ip) = true) in Hip.
    rewrite Hip. exact (parse_fraction_spec _ _ _ Hfp). }
  unfold parse_number. destruct s as [|c s]; [discriminate|].
  destruct (Ascii.eqb c "-"); apply Hun.
Qed.

End NumberFacts.

(** ** Reading back what JSON.stringify wrote *)

Module JSONFacts.

Import NumberFacts.

Lemma strip_prefix_app (p r : chars) : strip_prefix p (p ++ r) = Some r.
Proof.
  induction p as [|a p IH]; simpl; [reflexivity|].
  rewrite Ascii.eqb_refl. exact IH.
Qed.

(** Strings *)

Lemma parse_quote_char (c : ascii) (rest : chars) :
  parse_string_chars (quote_char c ++ rest) = cons_fst c (parse_string_chars rest).
Proof. each_char c; reflexivity. Qed.

Lemma parse_quoted_chars (cs rest : chars) :
  parse_string_chars (flat_map quote_char cs ++ "034"%char :: rest) = Some (cs, rest).
Proof.
  induction cs as [|c cs IH]; [reflexivity|].
  simpl flat_map. rewrite <- app_assoc, parse_quote_char, IH. reflexivity.
Qed.

Lemma quote_string_app (s : string) (rest : chars) :
  quote_string s ++ rest
  = "034"%char :: flat_map quote_char (list_ascii_of_string s) ++ "034"%char :: rest.
Proof. unfold quote_string. simpl. rewrite <- app_assoc. reflexivity. Qed.

Lemma parse_string_quoted (s : string) (rest : chars) :
  parse_string (flat_map quote_char (list_ascii_of_string s) ++ "034"%char :: rest)
  = Some (s, rest).
Proof.
  unfold parse_string. rewrite parse_quoted_chars.
  rewrite string_of_list_ascii_of_string. reflexivity.
Qed.

(** One step of each reader, spelled out *)

Lemma parse_value_number (fuel : nat) (c : ascii) (cs : chars) :
  starts_number c = true →
  parse_value (S fuel) (c :: cs)
  = match parse_number (c :: cs) with
    | Some (x, r') => Some (VNum x, r')
    | None => None
    end.
Proof. each_char c; first [discriminate | reflexivity]. Qed.

Lemma parse_value_array (fuel : nat) (rest : chars) :
  parse_value (S fuel) ("["%char :: rest)
  = match skip_ws rest with
    | c' :: r' =>
        if Ascii.eqb c' "]" then Some (VArr [], r')
        else match parse_elements fuel rest with
             | Some (vs, r'') => Some (VArr vs, r'')
             | None => None
             end
    | [] => None
    end.
Proof. reflexivity. Qed.

Lemma parse_value_object (fuel : nat) (rest : chars) :
  parse_value (S fuel) ("{"%char :: rest)
  = match skip_ws rest with
    | c' :: r' =>
        if Ascii.eqb c' "}" then Some (VObj [], r')
        else match parse_members fuel rest with
             | Some (ms, r'') => Some (VObj (build_object ms), r'')
             | None => None
             end
    | [] => None
    end.
Proof. reflexivity. Qed.

Lemma parse_elements_step (fuel : nat) (s : chars) :
  parse_elements (S fuel) s
  = match parse_value fuel s with
    | Some (v, r) =>
        match skip_ws r with
        | c :: r' =>
            if Ascii.eqb c "," then cons_fst v (parse_elements fuel r')
            else if Ascii.eqb c "]" then Some ([v], r')
            else None
        | [] => None
        end
    | None => None
    end.
Proof. reflexivity. Qed.

Lemma parse_members_step (fuel : nat) (body : chars) :
  parse_members (S fuel) ("034"%char :: body)
  = match parse_string body with
    | Some (k, r1) =>
        match skip_ws r1 with
        | c1 :: r2 =>
            if Ascii.eqb c1 ":" then
              match parse_value fuel r2 with
              | Some (v, r3) =>
                  match skip_ws r3 with
                  | c3 :: r4 =>
                      if Ascii.eqb c3 "," then cons_fst (k, v) (parse_members fuel r4)
                      else if Ascii.eqb c3 "}" then Some ([(k, v)], r4)
                      else None
                  | [] => None
                  end
              | None => None
              end
            else None
        | [] => None
        end
    | None => None
    end.
Proof. reflexivity. Qed.

Lemma starts_value_plain (c : ascii) :
  starts_value c = true →
  is_ws c = false ∧ Ascii.eqb c "]" = false ∧ Ascii.eqb c "}" = false.
Proof. each_char c; simpl; first [discriminate | repeat split]. Qed.

Lemma skip_ws_value (c : ascii) (t : chars) :
  starts_value c = true → skip_ws (c :: t) = c :: t.
Proof.
  intros Hc. simpl. destruct (starts_value_plain c Hc) as [-> _]. reflexivity.
Qed.

Lemma skip_ws_plain (c : ascii) (t : chars) :
  is_ws c = false → skip_ws (c :: t) = c :: t.
Proof. intros H. simpl. rewrite H. reflexivity. Qed.

Lemma starts_number_value (c : ascii) : starts_number c = true → starts_value c = true.
Proof. unfold starts_value. intros ->. rewrite !orb_true_r. reflexivity. Qed.

Lemma serialize_head (v : value) (s : chars) :
  wf v = true → serialize v = Some s → ∃ c cs, s = c :: cs ∧ starts_value c = true.
Proof.
  destruct v as [| |[]|[[]|neg m e| | |]|str|xs|ps]; intros Hw H;
    try discriminate; cbn [serialize] in H; injection H as <-;
    try (eexists _, _; split; reflexivity).
  destruct (number_to_chars_head (Binary neg m e) eq_refl Hw) as (c & cs & Heq & Hc).
  exists c, cs. split; [exact Heq | apply starts_number_value, Hc].
Qed.

Lemma serialize_json_value (v : value) :
  json_value v = true → ∃ s, serialize v = Some s.
Proof.
  destruct v as [| |[]|n|str|xs|ps]; simpl; intros H;
    try discriminate; eauto.
Qed.

Lemma join_comma_cons (p : chars) (ps : list chars) :
  join_comma (p :: ps)
  = p ++ match ps with [] => [] | _ :: _ => ","%char :: join_comma ps end.
Proof. destruct ps; simpl; [rewrite app_nil_r|]; reflexivity. Qed.

Lemma element_text_json (x : value) (s : chars) :
  serialize x = Some s → element_text x = s.
Proof. unfold element_text. intros ->. reflexivity. Qed.

Lemma reads_back_element (x : value) (fuel : nat) (r : chars) :
  reads_back x → json_value x = true → wf x = true →
  (size x ≤ fuel)%nat → ends_token r = true →
  parse_value fuel (element_text x ++ r) = Some (x, r).
Proof.
  intros Hx Hj Hw Hfuel Hr.
  destruct (serialize_json_value x Hj) as [s Hs].
  rewrite (element_text_json x s Hs). apply Hx; assumption.
Qed.

Lemma parse_elements_join (xs : list value) :
  xs ≠ [] → Forall reads_back xs →
  forallb json_value xs = true → forallb wf xs = true →
  ∀ fuel r, (sum_list (map (fun x => S (size x)) xs) ≤ fuel)%nat →
  parse_elements fuel (join_comma (map element_text xs) ++ "]"%char :: r) = Some (xs, r).
Proof.
  induction xs as [|x xs IH]; [contradiction|].
  intros _ Hall Hj Hw fuel r Hfuel.
  apply Forall_cons_1 in Hall as [Hx Hxs].
  simpl in Hj, Hw, Hfuel.
  apply andb_prop in Hj as [Hjx Hjxs]. apply andb_prop in Hw as [Hwx Hwxs].
  destruct fuel as [|fuel]; [lia|].
  rewrite parse_elements_step. simpl map. rewrite join_comma_cons, <- app_assoc.
  destruct xs as [|y ys].
  - rewrite app_nil_l, (reads_back_element x fuel ("]"%char :: r)) by (auto; lia).
    rewrite skip_ws_plain by reflexivity. reflexivity.
  - cbn [map]. cbv iota. rewrite <- app_comm_cons.
    change (element_text y :: map element_text ys) with (map element_text (y :: ys)).
    rewrite (reads_back_element x fuel) by (auto; lia).
    rewrite skip_ws_plain by reflexivity. cbv beta iota. rewrite Ascii.eqb_refl.
    rewrite (IH ltac:(discriminate) Hxs Hjxs Hwxs fuel r) by (simpl in *; lia).
    reflexivity.
Qed.

Lemma member_text_app (k : string) (v : value) (rest : chars) :
  member_text (k, v) ++ rest
  = "034"%char :: flat_map quote_char (list_ascii_of_string k)
      ++ "034"%char :: ":"%char :: element_text v ++ rest.
Proof.
  unfold member_text. simpl fst; simpl snd.
  rewrite <- app_assoc, quote_string_app, <- app_comm_cons. reflexivity.
Qed.

Lemma parse_members_join (ps : list (string * value)) :
  ps ≠ [] → Forall (fun p => reads_back (snd p)) ps →
  forallb (fun p => json_value (snd p)) ps = true →
  forallb (fun p => wf (snd p)) ps = true →
  ∀ fuel r, (sum_list (map (fun p => S (size (snd p))) ps) ≤ fuel)%nat →
  parse_members fuel (join_comma (map member_text ps) ++ "}"%char :: r) = Some (ps, r).
Proof.
  induction ps as [|[k v] ps IH]; [contradiction|].
  intros _ Hall Hj Hw fuel r Hfuel.
  apply Forall_cons_1 in Hall as [Hv Hps].
  simpl in Hj, Hw, Hfuel, Hv.
  apply andb_prop in Hj as [Hjv Hjps]. apply andb_prop in Hw as [Hwv Hwps].
  destruct fuel as [|fuel]; [lia|].
  simpl map. rewrite join_comma_cons, <- app_assoc, member_text_app.
  rewrite parse_members_step, parse_string_quoted.
  rewrite skip_ws_plain by reflexivity. cbv beta iota. rewrite Ascii.eqb_refl.
  destruct ps as [|q qs].
  - rewrite app_nil_l, (reads_back_element v fuel ("}"%char :: r)) by (auto; lia).
    rewrite skip_ws_plain by reflexivity. reflexivity.
  - cbn [map]. cbv iota. rewrite <- app_comm_cons.
    change (member_text q :: map member_text qs) with (map member_text (q :: qs)).
    rewrite (reads_back_element v fuel) by (auto; lia).
    rewrite skip_ws_plain by reflexivity. cbv beta iota. rewrite Ascii.eqb_refl.
    rewrite (IH ltac:(discriminate) Hps Hjps Hwps fuel r) by (simpl in *; lia).
    reflexivity.
Qed.

Lemma member_texts (ps : list (string * value)) :
  forallb (fun p => json_value (snd p)) ps = true →
  flat_map (fun p => match serialize (snd p) with
                     | Some t => [quote_string (fst p) ++ ":"%char :: t]
                     | None => []
                     end) ps
  = map member_text ps.
Proof.
  induction ps as [|p ps IH]; [reflexivity|]. intros Hj.
  cbn [forallb] in Hj. apply andb_prop in Hj as [Hjp Hjps].
  destruct (serialize_json_value _ Hjp) as [t Ht].
  cbn [flat_map map]. rewrite (IH Hjps), Ht.
  unfold member_text. rewrite (element_text_json _ t Ht). reflexivity.
Qed.

(** Property lists without a repeated name *)

Lemma existsb_eqb_elem (k : string) (ks : list string) :
  existsb (String.eqb k) ks = true ↔ k ∈ ks.
Proof.
  rewrite existsb_exists. split.
  - intros (x & Hin & Heq). apply String.eqb_eq in Heq as ->.
    apply list_elem_of_In, Hin.
  - intros Hin. exists k. split; [apply list_elem_of_In, Hin | apply String.eqb_refl].
Qed.

Lemma nodup_keys_NoDup (ks : list string) : nodup_keys ks = true ↔ NoDup ks.
Proof.
  induction ks as [|k ks IH]; simpl.
  - split; [intros _; constructor | reflexivity].
  - rewrite andb_true_iff, negb_true_iff, IH, NoDup_cons.
    rewrite <- existsb_eqb_elem.
    destruct (existsb (String.eqb k) ks); split; intros [H1 H2]; split;
      auto; congruence.
Qed.

Lemma set_property_fresh (k : string) (v : value) (acc : list (string * value)) :
  k ∉ map fst acc → set_property k v acc = acc ++ [(k, v)].
Proof.
  induction acc as [|[k' v'] acc IH]; simpl; intros Hfresh; [reflexivity|].
  apply not_elem_of_cons in Hfresh as [Hne Hfresh].
  destruct (String.eqb_spec k k'); [contradiction|].
  rewrite IH by assumption. reflexivity.
Qed.

Lemma build_object_from (ms acc : list (string * value)) :
  NoDup (map fst (acc ++ ms)) →
  fold_left (fun o m => set_property (fst m) (snd m) o) ms acc = acc ++ ms.
Proof.
  revert acc. induction ms as [|[k v] ms IH]; intros acc Hnd; simpl.
  - rewrite app_nil_r. reflexivity.
  - rewrite set_property_fresh.
    + rewrite IH, <- app_assoc; [reflexivity|].
      rewrite <- app_assoc. exact Hnd.
    + rewrite map_app in Hnd. apply NoDup_app in Hnd as (_ & Hdisj & _).
      intros Hin. apply (Hdisj k Hin). simpl. left.
Qed.

Lemma build_object_nodup (ps : list (string * value)) :
  nodup_keys (map fst ps) = true → build_object ps = ps.
Proof.
  intros Hnd. apply nodup_keys_NoDup in Hnd.
  unfold build_object. rewrite build_object_from; [reflexivity | exact Hnd].
Qed.

Lemma join_comma_value_head (p : chars) (ps : list chars) (rest : chars) :
  (∃ c cs, p = c :: cs ∧ starts_value c = true) →
  ∃ c t, join_comma (p :: ps) ++ rest = c :: t ∧ starts_value c = true.
Proof.
  intros (c & cs & -> & Hc). rewrite join_comma_cons.
  eexists c, _. split; [reflexivity | exact Hc].
Qed.

Lemma element_text_head (x : value) :
  wf x = true → ∃ c cs, element_text x = c :: cs ∧ starts_value c = true.
Proof.
  intros Hw. unfold element_text. destruct (serialize x) as [s|] eqn:Hs.
  - apply (serialize_head x s Hw Hs).
  - eexists _, _. split; reflexivity.
Qed.

Theorem reads_back_all (v : value) : reads_back v.
Proof.
  induction v as [| |b|n|str|xs IH|ps IH] using value_ind; unfold reads_back;
    intros Hj Hw s Hs fuel r Hfuel Hr; simpl in Hs, Hfuel;
    (destruct fuel as [|fuel]; [lia|]).
  - discriminate.
  - injection Hs as <-. reflexivity.
  - destruct b; injection Hs as <-; reflexivity.
  - change (json_number n = true) in Hj. change (valid_number n = true) in Hw.
    assert (Hs' : s = number_to_chars n)
      by (destruct n; try discriminate; injection Hs as <-; reflexivity).
    subst s.
    destruct (number_to_chars_head n Hj Hw) as (c & cs & Heq & Hc).
    pose proof (parse_number_to_chars n r Hj Hw Hr) as Hnum.
    rewrite Heq in *. rewrite <- app_comm_cons in *.
    rewrite parse_value_number by exact Hc. rewrite Hnum. reflexivity.
  - injection Hs as <-. rewrite quote_string_app.
    change (parse_value (S fuel) ("034"%char :: ?body))
      with (match parse_string body with
            | Some (k, r') => Some (VStr k, r')
            | None => None
            end).
    rewrite parse_string_quoted. reflexivity.
  - injection Hs as <-. simpl in Hj, Hw.
    rewrite <- app_comm_cons, <- app_assoc, parse_value_array.
    fold element_text. change (["]"%char] ++ r) with ("]"%char :: r).
    destruct xs as [|x xs]; [reflexivity|].
    assert (Hwx : wf x = true) by (apply andb_prop in Hw as [Hwx _]; exact Hwx).
    destruct (join_comma_value_head (element_text x) (map element_text xs)
                ("]"%char :: r) (element_text_head x Hwx)) as (c & t & Heq & Hc).
    rewrite parse_elements_join by (auto; try discriminate; lia).
    cbn [map]. rewrite Heq, skip_ws_value by exact Hc.
    destruct (starts_value_plain c Hc) as (_ & -> & _). reflexivity.
  - injection Hs as <-. simpl in Hj, Hw.
    apply andb_prop in Hw as [Hnd Hw].
    rewrite <- app_comm_cons, <- app_assoc, parse_value_object.
    rewrite member_texts by exact Hj. change (["}"%char] ++ r) with ("}"%char :: r).
    destruct ps as [|[k x] ps]; [reflexivity|].
    rewrite parse_members_join by (auto; try discriminate; lia).
    rewrite build_object_nodup by exact Hnd.
    cbn [map]. rewrite join_comma_cons, <- app_assoc, member_text_app.
    rewrite skip_ws_plain by reflexivity. reflexivity.
Qed.

(** The length of a text is fuel enough *)

Lemma sum_le_join {A} (f : A → nat) (g : A → chars) (l : list A) :
  Forall (fun a => (f a ≤ length (g a))%nat) l →
  (sum_list (map (fun a => S (f a)) l) ≤ S (length (join_comma (map g l))))%nat.
Proof.
  induction 1 as [|a l Ha _ IH]; [simpl; lia|].
  cbn [map sum_list]. rewrite join_comma_cons, length_app.
  destruct l as [|b l]; simpl in *; lia.
Qed.

Lemma size_le_length (v : value) :
  json_value v = true → wf v = true →
  ∀ s, serialize v = Some s → (size v ≤ length s)%nat.
Proof.
  induction v as [| |b|n|str|xs IH|ps IH] using value_ind;
    intros Hj Hw s Hs.
  - discriminate.
  - injection Hs as <-. simpl. lia.
  - destruct b; injection Hs as <-; simpl; lia.
  - destruct (serialize_head (VNum n) s Hw Hs) as (c & cs & -> & _). simpl. lia.
  - injection Hs as <-. simpl. lia.
  - cbn [serialize] in Hs. injection Hs as <-. fold element_text.
    change (forallb json_value xs = true) in Hj.
    change (forallb wf xs = true) in Hw.
    cbn [size length]. rewrite length_app. simpl length.
    assert (Hall : Forall (fun x => (size x ≤ length (element_text x))%nat) xs).
    { pose proof (proj1 (forallb_forall _ _) Hj) as Hjall.
      pose proof (proj1 (forallb_forall _ _) Hw) as Hwall.
      rewrite Forall_forall in IH |- *.
      intros x Hx. apply list_elem_of_In in Hx as Hin.
      destruct (serialize_json_value x (Hjall x Hin)) as [t Ht].
      rewrite (element_text_json x t Ht). apply IH; auto. }
    pose proof (sum_le_join size element_text xs Hall). lia.
  - cbn [serialize] in Hs. injection Hs as <-.
    change (forallb (fun p => json_value (snd p)) ps = true) in Hj.
    change (nodup_keys (map fst ps) && forallb (fun p => wf (snd p)) ps = true) in Hw.
    apply andb_prop in Hw as [_ Hw].
    rewrite member_texts by exact Hj.
    cbn [size length]. rewrite length_app. simpl length.
    assert (Hall : Forall (fun p => (size (snd p) ≤ length (member_text p))%nat) ps).
    { pose proof (proj1 (forallb_forall _ _) Hj) as Hjall.
      pose proof (proj1 (forallb_forall _ _) Hw) as Hwall.
      rewrite Forall_forall in IH |- *.
      intros p Hp. apply list_elem_of_In in Hp as Hin.
      destruct (serialize_json_value (snd p) (Hjall p Hin)) as [t Ht].
      unfold member_text. rewrite (element_text_json _ t Ht), length_app.
      specialize (IH p Hp (Hjall p Hin) (Hwall p Hin) t Ht). simpl. lia. }
    pose proof (sum_le_join (fun p => size (snd p)) member_text ps Hall). lia.
Qed.

(** [JSON.parse(JSON.stringify(v))] is [v] for the values JSON
    represents. *)
Theorem parse_stringify (v : value) :
  json_value v = true → wf v = true →
  ∃ text, JSON_stringify v = Some text ∧ JSON_parse text = Some v.
Proof.
  intros Hj Hw. destruct (serialize_json_value v Hj) as [s Hs].
  exists (string_of_list_ascii s). unfold JSON_stringify, JSON_parse.
  rewrite Hs. split; [reflexivity|].
  rewrite list_ascii_of_string_of_list_ascii.
  pose proof (reads_back_all v Hj Hw s Hs (S (length s)) []) as Hread.
  rewrite app_nil_r in Hread. rewrite Hread; [reflexivity | | reflexivity].
  pose proof (size_le_length v Hj Hw s Hs). lia.
Qed.

(** What is written for a value is what is written for its normal form *)

Lemma serialize_normalize (v : value) :
  v ≠ VUndefined → serialize (normalize v) = serialize v.
Proof.
  induction v as [| |b|n|str|xs IH|ps IH] using value_ind; intros Hdef;
    try reflexivity.
  - destruct n; reflexivity.
  - assert (Hmap : map element_text (map (normalize_element normalize) xs)
                   = map element_text xs).
    { rewrite map_map. apply map_ext_Forall. eapply Forall_impl; [exact IH|].
      intros x Hx. unfold element_text.
      destruct x; try reflexivity;
        unfold normalize_element; f_equal; apply Hx; discriminate. }
    cbn [normalize serialize]. fold element_text. rewrite Hmap. reflexivity.
  - set (write := fun p : string * value =>
                    match serialize (snd p) with
                    | Some t => [quote_string (fst p) ++ ":"%char :: t]
                    | None => []
                    end).
    assert (Hmap : flat_map write (flat_map (normalize_member normalize) ps)
                   = flat_map write ps).
    { clear Hdef. induction IH as [|[k x] ps Hx _ IHps]; [reflexivity|].
      cbn [flat_map]. rewrite flat_map_app, IHps. f_equal.
      unfold normalize_member, write. simpl fst; simpl snd. simpl in Hx.
      destruct x; try reflexivity; cbn [flat_map fst snd];
        rewrite Hx by discriminate; rewrite app_nil_r; reflexivity. }
    cbn [normalize serialize]. fold write. rewrite Hmap. reflexivity.
Qed.

Lemma json_value_normalize (v : value) :
  v ≠ VUndefined → json_value (normalize v) = true.
Proof.
  induction v as [| |b|n|str|xs IH|ps IH] using value_ind; intros Hdef;
    try reflexivity.
  - contradiction.
  - destruct n; reflexivity.
  - cbn [normalize json_value]. clear Hdef.
    induction IH as [|x xs Hx _ IHxs]; [reflexivity|].
    cbn [map forallb]. rewrite IHxs, andb_true_r.
    destruct x; try reflexivity; apply Hx; discriminate.
  - cbn [normalize json_value]. clear Hdef.
    induction IH as [|[k x] ps Hx _ IHps]; [reflexivity|].
    cbn [flat_map]. rewrite forallb_app, IHps, andb_true_r.
    unfold normalize_member. simpl fst; simpl snd.
    destruct x; try reflexivity; cbn [forallb snd]; rewrite andb_true_r;
      apply Hx; discriminate.
Qed.

Lemma normalize_keys (ps : list (string * value)) :
  map fst (flat_map (normalize_member normalize) ps) `sublist_of` map fst ps.
Proof.
  induction ps as [|[k x] ps IH]; [constructor|].
  cbn [flat_map map]. rewrite map_app. unfold normalize_member at 1.
  simpl fst; simpl snd.
  destruct x; try (apply sublist_skip, IH). apply sublist_cons, IH.
Qed.

Lemma wf_normalize (v : value) : wf v = true → wf (normalize v) = true.
Proof.
  induction v as [| |b|n|str|xs IH|ps IH] using value_ind; intros Hw;
    try reflexivity.
  - destruct n; [reflexivity | exact Hw | reflexivity..].
  - change (forallb wf xs = true) in Hw. cbn [normalize wf].
    induction IH as [|x xs Hx _ IHxs]; [reflexivity|].
    cbn [forallb] in Hw. apply andb_prop in Hw as [Hwx Hwxs].
    cbn [map forallb]. rewrite (IHxs Hwxs), andb_true_r.
    destruct x; try reflexivity; apply Hx, Hwx.
  - change (nodup_keys (map fst ps) && forallb (fun p => wf (snd p)) ps = true) in Hw.
    apply andb_prop in Hw as [Hnd Hw].
    cbn [normalize wf]. apply andb_true_intro. split.
    + apply nodup_keys_NoDup. apply nodup_keys_NoDup in Hnd.
      exact (sublist_NoDup _ _ Hnd (normalize_keys ps)).
    + clear Hnd. induction IH as [|[k x] ps Hx _ IHps]; [reflexivity|].
      cbn [forallb] in Hw. apply andb_prop in Hw as [Hwx Hwps].
      cbn [flat_map]. rewrite forallb_app, (IHps Hwps), andb_true_r.
      unfold normalize_member. simpl fst; simpl snd. simpl in Hwx, Hx.
      destruct x; try reflexivity; cbn [forallb snd]; rewrite andb_true_r;
        apply Hx, Hwx.
Qed.


(** Every value but [undefined] has a text, and the text reads back as
    the value's normal form. *)
Theorem parse_stringify_normalize (v : value) :
  v ≠ VUndefined → wf v = true →
  ∃ text, JSON_stringify v = Some text ∧ JSON_parse text = Some (normalize v).
Proof.
  intros Hdef Hw.
  destruct (parse_stringify (normalize v)
              (json_value_normalize v Hdef) (wf_normalize v Hw))
    as (text & Hwrite & Hread).
  exists text. split; [|exact Hread].
  unfold JSON_stringify in *. rewrite <- (serialize_normalize v Hdef). exact Hwrite.
Qed.

(** What [JSON.parse] returns satisfies the invariant *)

Lemma set_property_wf (k : string) (v : value) (ps : list (string * value)) :
  wf (VObj ps) = true → wf v = true → wf (VObj (set_property k v ps)) = true.
Proof.
  intros Hps Hv.
  change (nodup_keys (map fst ps) && forallb (fun p => wf (snd p)) ps = true) in Hps.
  change (nodup_keys (map fst (set_property k v ps))
          && forallb (fun p => wf (snd p)) (set_property k v ps) = true).
  apply andb_prop in Hps as [Hnd Hall]. apply nodup_keys_NoDup in Hnd.
  apply andb_true_intro. rewrite nodup_keys_NoDup.
  destruct (decide (k ∈ map fst ps)) as [Hin|Hfresh].
  - assert (Hkeys : map fst (set_property k v ps) = map fst ps).
    { clear Hnd Hall. induction ps as [|[k' v'] ps IH]; [inversion Hin|]. simpl.
      destruct (String.eqb_spec k k') as [->|Hne]; [reflexivity|].
      simpl. f_equal. apply IH. simpl in Hin. apply elem_of_cons in Hin as [|]; congruence. }
    rewrite Hkeys. split; [exact Hnd|].
    clear Hnd Hkeys Hin. induction ps as [|[k' v'] ps IH]; [simpl; rewrite Hv; reflexivity|].
    cbn [forallb] in Hall. apply andb_prop in Hall as [Hv' Hall]. cbn [snd] in Hv'.
    cbn [set_property]. destruct (String.eqb k k'); cbn [forallb snd].
    + rewrite Hv, Hall. reflexivity.
    + rewrite Hv', (IH Hall). reflexivity.
  - rewrite (set_property_fresh k v ps Hfresh). split.
    + rewrite map_app. apply NoDup_app. split; [exact Hnd|]. split.
      * intros x Hx Hk. simpl in Hk. apply list_elem_of_singleton in Hk as ->. contradiction.
      * simpl. apply NoDup_singleton.
    + rewrite forallb_app, Hall. simpl. rewrite Hv. reflexivity.
Qed.

Lemma build_object_wf (ms : list (string * value)) :
  forallb (fun p => wf (snd p)) ms = true → wf (VObj (build_object ms)) = true.
Proof.
  unfold build_object. generalize (@nil (string * value)) (eq_refl : wf (VObj []) = true).
  induction ms as [|[k v] ms IH]; intros acc Hacc Hms; [exact Hacc|].
  cbn [forallb] in Hms. apply andb_prop in Hms as [Hv Hms].
  simpl. apply IH; [|exact Hms]. apply set_property_wf; assumption.
Qed.

Lemma cons_fst_Some {A B} (a : A) (r : option (list A * B)) (l : list A) (b : B) :
  cons_fst a r = Some (l, b) → ∃ l', r = Some (l', b) ∧ l = a :: l'.
Proof.
  destruct r as [[l' b']|]; [|discriminate]. intros [= <- <-]. eauto.
Qed.

Lemma parse_wf (fuel : nat) :
  (∀ s v r, parse_value fuel s = Some (v, r) → wf v = true)
  ∧ (∀ s vs r, parse_elements fuel s = Some (vs, r) → forallb wf vs = true)
  ∧ (∀ s ms r, parse_members fuel s = Some (ms, r) →
               forallb (fun p => wf (snd p)) ms = true).
Proof.
  induction fuel as [|fuel (IHv & IHe & IHm)]; [repeat split; discriminate|].
  split; [|split].
  - intros s v r. cbn [parse_value].
    destruct (skip_ws s) as [|c r0]; [discriminate|].
    destruct (Ascii.eqb c "n");
      [destruct (strip_prefix _ r0); [intros [= <- <-]; reflexivity | discriminate]|].
    destruct (Ascii.eqb c "t");
      [destruct (strip_prefix _ r0); [intros [= <- <-]; reflexivity | discriminate]|].
    destruct (Ascii.eqb c "f");
      [destruct (strip_prefix _ r0); [intros [= <- <-]; reflexivity | discriminate]|].
    destruct (Ascii.eqb c "034");
      [destruct (parse_string r0) as [[str r']|]; [intros [= <- <-]; reflexivity | discriminate]|].
    destruct (Ascii.eqb c "[").
    { destruct (skip_ws r0) as [|c' r']; [discriminate|].
      destruct (Ascii.eqb c' "]"); [intros [= <- <-]; reflexivity|].
      destruct (parse_elements fuel r0) as [[vs r'']|] eqn:He; [|discriminate].
      intros [= <- <-]. exact (IHe _ _ _ He). }
    destruct (Ascii.eqb c "{").
    { destruct (skip_ws r0) as [|c' r']; [discriminate|].
      destruct (Ascii.eqb c' "}"); [intros [= <- <-]; reflexivity|].
      destruct (parse_members fuel r0) as [[ms r'']|] eqn:Hm; [|discriminate].
      intros [= <- <-]. apply build_object_wf. exact (IHm _ _ _ Hm). }
    destruct (parse_number (c :: r0)) as [[x r']|] eqn:Hn; [|discriminate].
    intros [= <- <-]. exact (parse_number_valid _ _ _ Hn).
  - intros s vs r. cbn [parse_elements].
    destruct (parse_value fuel s) as [[v r0]|] eqn:Hv; [|discriminate].
    destruct (skip_ws r0) as [|c r']; [discriminate|].
    destruct (Ascii.eqb c ",").
    { intros H. apply cons_fst_Some in H as (vs' & He & ->).
      cbn [forallb]. rewrite (IHv _ _ _ Hv), (IHe _ _ _ He). reflexivity. }
    destruct (Ascii.eqb c "]"); [|discriminate].
    intros [= <- <-]. cbn [forallb]. rewrite (IHv _ _ _ Hv). reflexivity.
  - intros s ms r. cbn [parse_members].
    destruct (skip_ws s) as [|c r0]; [discriminate|].
    destruct (Ascii.eqb c "034"); [|discriminate].
    destruct (parse_string r0) as [[k r1]|]; [|discriminate].
    destruct (skip_ws r1) as [|c1 r2]; [discriminate|].
    destruct (Ascii.eqb c1 ":"); [|discriminate].
    destruct (parse_value fuel r2) as [[v r3]|] eqn:Hv; [|discriminate].
    destruct (skip_ws r3) as [|c3 r4]; [discriminate|].
    destruct (Ascii.eqb c3 ",").
    { intros H. apply cons_fst_Some in H as (ms' & Hm & ->).
      cbn [forallb snd]. rewrite (IHv _ _ _ Hv), (IHm _ _ _ Hm). reflexivity. }
    destruct (Ascii.eqb c3 "}"); [|discriminate].
    intros [= <- <-]. cbn [forallb snd]. rewrite (IHv _ _ _ Hv). reflexivity.
Qed.

(** [JSON.parse] returns values of the language only: whatever the text,
    the numbers in the result are doubles and no object has a name
    twice. *)
Theorem JSON_parse_wf (text : string) (v : value) :
  JSON_parse text = Some v → wf v = true.
Proof.
  unfold JSON_parse.
  destruct (parse_value _ _) as [[v' r]|] eqn:Hv; [|discriminate].
  destruct (skip_ws r); [|discriminate]. intros [= <-].
  exact (proj1 (parse_wf _) _ _ _ Hv).
Qed.

Lemma JSON_parse_defined (text : string) (v : value) :
  JSON_parse text = Some v → v ≠ VUndefined.
Proof.
  unfold JSON_parse.
  destruct (parse_value _ _) as [[v' r]|] eqn:Hv; [|discriminate].
  destruct (skip_ws r); [|discriminate]. intros [= <-].
  revert Hv. cbn [parse_value].
  destruct (skip_ws _) as [|c r0]; [discriminate|].
  destruct (Ascii.eqb c "n");
    [destruct (strip_prefix _ r0); [intros [= <- _] | intros]; discriminate|].
  destruct (Ascii.eqb c "t");
    [destruct (strip_prefix _ r0); [intros [= <- _] | intros]; discriminate|].
  destruct (Ascii.eqb c "f");
    [destruct (strip_prefix _ r0); [intros [= <- _] | intros]; discriminate|].
  destruct (Ascii.eqb c "034");
    [destruct (parse_string r0) as [[str r']|]; [intros [= <- _] | intros]; discriminate|].
  destruct (Ascii.eqb c "[").
  { destruct (skip_ws r0) as [|c' r']; [discriminate|].
    destruct (Ascii.eqb c' "]"); [intros [= <- _]; discriminate|].
    destruct (parse_elements _ r0) as [[vs r'']|]; [intros [= <- _] | intros]; discriminate. }
  destruct (Ascii.eqb c "{").
  { destruct (skip_ws r0) as [|c' r']; [discriminate|].
    destruct (Ascii.eqb c' "}"); [intros [= <- _]; discriminate|].
    destruct (parse_members _ r0) as [[ms r'']|]; [intros [= <- _] | intros]; discriminate. }
  destruct (parse_number (c :: r0)) as [[x r']|]; [intros [= <- _] | intros]; discriminate.
Qed.

End JSONFacts.

(** ** The body of an envelope, read back *)

Section Body.
Variable env : gmap string string.




(** A payload that was itself read from JSON gives a body that is valid
    JSON and reads back as the payload with its infinities and negative
    zeros replaced. *)
Corollary parsed_payload_body (received : string) (p : value) (s : option Z) :
  JSON_parse received = Some p →
  ∃ text, body (successResponse env p s) = Some text
          ∧ JSON_parse text = Some (normalize p).
Proof.
  intros Hp. apply JSONFacts.parse_stringify_normalize.
  - exact (JSONFacts.JSON_parse_defined received p Hp).
  - exact (JSONFacts.JSON_parse_wf received p Hp).
Qed.
End Body.



Example error_body :
  (text ← body (errorResponse ∅ "NotFound" "no such item" (Some 404)); JSON_parse text)
  = Some (error_pair "NotFound" "no such item").
Proof. reflexivity. Qed.

(** ** The item service, operation by operation *)

Module ServiceFacts.
Import Operations.

Section Service.
Variable API_BASE_URL : string.
Variable server : AxiosRequestConfig → Outcome.

Local Abbreviation perform := (perform API_BASE_URL server).
Local Abbreviation request_of := (request_of API_BASE_URL).

(** X1: The request handler changes the Authorization header and nothing
    else. *)
Theorem request_interceptor_frame (w : World) (config : AxiosRequestConfig) :
  cfg_method (request_interceptor w config) = cfg_method config
  ∧ cfg_url (request_interceptor w config) = cfg_url config
  ∧ cfg_baseURL (request_interceptor w config) = cfg_baseURL config
  ∧ cfg_data (request_interceptor w config) = cfg_data config
  ∧ ∀ h, h ≠ "Authorization" →
         cfg_headers (request_interceptor w config) !! h = cfg_headers config !! h.
Proof.
  unfold request_interceptor. destruct (truthy _); simpl; repeat split; try reflexivity.
  intros h Hh. apply lookup_insert_ne. congruence.
Qed.

(** X2: Running the request handler on its own output changes nothing, and
    without a token a header that is already there stays. *)
Theorem request_interceptor_idempotent (w : World) (config : AxiosRequestConfig) :
  request_interceptor w (request_interceptor w config) = request_interceptor w config
  ∧ (truthy (localStorage w !! "idToken") = false →
     cfg_headers (request_interceptor w config) !! "Authorization"
     = cfg_headers config !! "Authorization").
Proof.
  unfold request_interceptor, localStorage_getItem.
  destruct (truthy (localStorage w !! "idToken")); split; try reflexivity; try discriminate.
  unfold set_header. simpl. rewrite insert_insert_eq. reflexivity.
Qed.

Lemma api_request_run (config : AxiosRequestConfig) (w : World) :
  let req := request_interceptor w config in
  api_request server config w
  = match server req with
    | Reply r =>
        if validateStatus (res_status r) then (dispatch req w, Fulfilled r)
        else ((if res_status r =? 401 then clear_session (dispatch req w) else dispatch req w),
              Rejected {| err_config := req; err_response := Some r |})
    | NoReply => (dispatch req w, Rejected {| err_config := req; err_response := None |})
    end.
Proof.
  intros req. unfold api_request. fold req.
  destruct (server req) as [r|]; [|reflexivity].
  destruct (validateStatus (res_status r)); reflexivity.
Qed.

Lemma perform_run (op : Operation) (w : World) :
  perform op w
  = match api_request server (request_of op) w with
    | (w', Fulfilled r) => (w', Fulfilled (result_of op r))
    | (w', Rejected e) => (w', Rejected e)
    end.
Proof.
  destruct op; unfold Operations.perform; simpl;
    unfold createItem, getItem, getAllItems, listItems, updateItem, deleteItem,
      api_post, api_get, api_put, api_delete, await, resolve;
    destruct (api_request _ _ w) as [w' [r|e]]; reflexivity.
Qed.

Lemma api_request_sent' (op : Operation) (w : World) :
  sent (perform op w).1 = request_interceptor w (request_of op) :: sent w.
Proof.
  rewrite perform_run, <- (api_request_sent server (request_of op) w).
  destruct (api_request server (request_of op) w) as [w' [r|e]]; reflexivity.
Qed.

(** X3: Every operation hands exactly one request to the transport, and it
    has the verb, path, base URL and payload of the call. *)
Theorem perform_sends_one_request (op : Operation) (w : World) :
  ∃ req, sent (perform op w).1 = req :: sent w
         ∧ cfg_method req = cfg_method (request_of op)
         ∧ cfg_url req = cfg_url (request_of op)
         ∧ cfg_baseURL req = API_BASE_URL
         ∧ cfg_data req = cfg_data (request_of op).
Proof.
  exists (request_interceptor w (request_of op)).
  split; [apply api_request_sent'|].
  unfold request_interceptor. destruct (truthy _); destruct op; simpl;
    repeat split.
Qed.

(** X4: What an operation's promise settles with: the data of a 2xx reply
    (nothing for a delete), or else the error of the request, which
    carries the reply if there was one. *)
Theorem perform_outcome (op : Operation) (w : World) :
  let req := request_interceptor w (request_of op) in
  match (perform op w).2 with
  | Fulfilled d =>
      ∃ r, server req = Reply r ∧ validateStatus (res_status r) = true
           ∧ d = result_of op r
  | Rejected e =>
      err_config e = req
      ∧ match err_response e with
        | Some r => server req = Reply r ∧ validateStatus (res_status r) = false
        | None => server req = NoReply
        end
  end.
Proof.
  intros req. rewrite perform_run, api_request_run. fold req.
  destruct (server req) as [r|] eqn:Hreply; simpl.
  - destruct (validateStatus (res_status r)) eqn:Hok; simpl; eauto.
  - auto.
Qed.

(** X5: For every operation the session is reset exactly when the reply has
    status 401: then the three entries are gone and the sign-in path is
    assigned; on any other reply, and on none, storage and location stay. *)
Theorem session_reset_iff_401 (op : Operation) (w : World) :
  let req := request_interceptor w (request_of op) in
  let w' := (perform op w).1 in
  ((∃ r, server req = Reply r ∧ res_status r = 401) →
     localStorage w' = localStorage (clear_session w)
     ∧ navigations w' = "/signin" :: navigations w)
  ∧ (¬ (∃ r, server req = Reply r ∧ res_status r = 401) →
     localStorage w' = localStorage w ∧ navigations w' = navigations w).
Proof.
  intros req w'. unfold w'. rewrite perform_run, api_request_run. fold req.
  destruct (server req) as [r|] eqn:Hreply; simpl.
  - destruct (validateStatus (res_status r)) eqn:Hok; simpl.
    + split; [|split; reflexivity].
      intros (r' & [= <-] & H401). rewrite H401 in Hok. discriminate.
    + destruct (Z.eqb_spec (res_status r) 401) as [H401|Hne]; simpl.
      * split; [split; reflexivity|]. intros Hnot. exfalso. apply Hnot. eauto.
      * split; [|split; reflexivity].
        intros (r' & [= <-] & H401). contradiction.
  - split; [|split; reflexivity]. intros (r' & Hr & _). discriminate.
Qed.

Lemma session_key_cases (key : string) :
  key ∈ ["accessToken"; "refreshToken"; "idToken"]
  ↔ key = "accessToken" ∨ key = "refreshToken" ∨ key = "idToken".
Proof. rewrite !elem_of_cons, elem_of_nil. tauto. Qed.

(** X6: The session reset deletes the three entries and no other, and doing
    it again changes nothing in storage. *)
Theorem clear_session_exact (w : World) :
  (∀ key, localStorage (clear_session w) !! key
          = if bool_decide (key ∈ ["accessToken"; "refreshToken"; "idToken"])
            then None else localStorage w !! key)
  ∧ localStorage (clear_session (clear_session w)) = localStorage (clear_session w)
  ∧ sent (clear_session w) = sent w.
Proof.
  assert (Hkeys : ∀ w0 key,
            localStorage (clear_session w0) !! key
            = if bool_decide (key ∈ ["accessToken"; "refreshToken"; "idToken"])
              then None else localStorage w0 !! key).
  { intros w0 key. case_bool_decide as Hkey; rewrite session_key_cases in Hkey.
    - apply clear_session_storage, Hkey.
    - apply clear_session_other_keys; tauto. }
  split; [apply Hkeys|]. split; [|reflexivity].
  apply map_eq. intros key. rewrite (Hkeys (clear_session w)), (Hkeys w).
  case_bool_decide; reflexivity.
Qed.

Lemma perform_world_401 (op : Operation) (w : World) (r : AxiosResponse) :
  server (request_interceptor w (request_of op)) = Reply r →
  res_status r = 401 →
  (perform op w).1 = clear_session (dispatch (request_interceptor w (request_of op)) w).
Proof.
  intros Hreply H401. rewrite perform_run, api_request_run. cbv zeta.
  rewrite Hreply, H401. reflexivity.
Qed.

(** X7: After a 401 the next request of the service, whichever it is, goes
    out as composed: without an Authorization header. *)
Theorem after_401_unauthenticated (op next : Operation) (w : World) (r : AxiosResponse) :
  server (request_interceptor w (request_of op)) = Reply r →
  res_status r = 401 →
  let w' := (perform op w).1 in
  request_interceptor w' (request_of next) = request_of next
  ∧ ∃ req, sent (perform next w').1 = req :: sent w'
           ∧ cfg_headers req !! "Authorization" = None.
Proof.
  intros Hreply H401 w'.
  assert (Hgone : localStorage w' !! "idToken" = None).
  { unfold w'. rewrite (perform_world_401 op w r Hreply H401).
    apply clear_session_storage. tauto. }
  assert (Hsame : request_interceptor w' (request_of next) = request_of next).
  { apply request_interceptor_no_token. rewrite Hgone. reflexivity. }
  split; [exact Hsame|].
  exists (request_of next). split.
  - rewrite perform_run.
    pose proof (api_request_sent server (request_of next) w') as Hs.
    rewrite Hsame in Hs.
    destruct (api_request server (request_of next) w') as [w2 [a|e]]; exact Hs.
  - destruct next; reflexivity.
Qed.
End Service.

Lemma session_reset_iff_401_witness :
  let server := fun _ : AxiosRequestConfig => Reply unauthorized in
  (∃ r, server (request_interceptor signed_in (Operations.request_of "https://api" OpList))
        = Reply r ∧ res_status r = 401)
  ∧ navigations (Operations.perform "https://api" server OpList signed_in).1 = ["/signin"].
Proof.
  intros server.
  assert (H401 : ∃ r, server (request_interceptor signed_in
                                (Operations.request_of "https://api" OpList)) = Reply r
                      ∧ res_status r = 401).
  { exists unauthorized. split; reflexivity. }
  split; [exact H401|].
  apply (proj1 (session_reset_iff_401 "https://api" server OpList signed_in) H401).
Defined.

Lemma request_interceptor_frame_witness :
  "Content-Type" ≠ "Authorization"
  ∧ cfg_headers (request_interceptor signed_in (api_config "https://api" PUT "/items/x" item_x))
      !! "Content-Type" = Some "application/json".
Proof.
  split; [discriminate|].
  rewrite (proj2 (proj2 (proj2 (proj2
             (request_interceptor_frame signed_in
                (api_config "https://api" PUT "/items/x" item_x)))))
             "Content-Type") by discriminate.
  reflexivity.
Defined.

Lemma request_interceptor_idempotent_witness :
  truthy (localStorage signed_out !! "idToken") = false
  ∧ cfg_headers (request_interceptor signed_out
                   (set_header "Authorization" "Bearer stale"
                      (api_config "https://api" GET "/items" VUndefined)))
      !! "Authorization" = Some "Bearer stale".
Proof.
  split; [reflexivity|].
  rewrite (proj2 (request_interceptor_idempotent signed_out
                    (set_header "Authorization" "Bearer stale"
                       (api_config "https://api" GET "/items" VUndefined))) eq_refl).
  reflexivity.
Defined.

Lemma after_401_unauthenticated_witness :
  let server := fun _ : AxiosRequestConfig => Reply unauthorized in
  server (request_interceptor signed_in (Operations.request_of "https://api" (OpGet "x")))
  = Reply unauthorized
  ∧ res_status unauthorized = 401
  ∧ request_interceptor (Operations.perform "https://api" server (OpGet "x") signed_in).1
      (Operations.request_of "https://api" OpList)
    = Operations.request_of "https://api" OpList.
Proof.
  intros server. split; [reflexivity|]. split; [reflexivity|].
  apply (after_401_unauthenticated "https://api" server (OpGet "x") OpList signed_in
           unauthorized eq_refl eq_refl).
Defined.

End ServiceFacts.

(** ** More on the envelope *)

Module EnvelopeFacts.
Import Failures.

(** X8: Two environments give the same header object exactly when they agree
    on the allowed origin. *)
Theorem corsOption_origin (env1 env2 : gmap string string) :
  corsOption env1 = corsOption env2
  ↔ env1 !! "ALLOWED_ORIGIN" = env2 !! "ALLOWED_ORIGIN".
Proof.
  unfold corsOption, env_lookup. split.
  - intros Heq.
    destruct (env1 !! "ALLOWED_ORIGIN"), (env2 !! "ALLOWED_ORIGIN");
      congruence.
  - intros ->. reflexivity.
Qed.

Section Body.
Variable env : gmap string string.




End Body.




(** What the payload with the replaced parts reads back as. *)
Example lossy_item_body :
  (text ← body (successResponse ∅ lossy_item None); JSON_parse text) = Some lossy_item_read
  ∧ body (successResponse ∅ lossy_item_read None) = body (successResponse ∅ lossy_item None).
Proof. vm_compute. split; reflexivity. Qed.

End EnvelopeFacts.

(** ** The dashboard *)

Module DashboardFacts.
Import Failures Dashboard.

Section Lists.
Context {Item : Type}.
Variable itemId : Item → string.
Variable category : Item → string.

Lemma remove_item_elem (id : string) (prev : list Item) (item : Item) :
  item ∈ remove_item itemId id prev ↔ item ∈ prev ∧ itemId item ≠ id.
Proof.
  unfold remove_item. rewrite !list_elem_of_In, filter_In, negb_true_iff.
  destruct (String.eqb_spec (itemId item) id); split; intros [H1 H2]; split;
    auto; congruence.
Qed.

Lemma remove_item_sublist (id : string) (prev : list Item) :
  remove_item itemId id prev `sublist_of` prev.
Proof.
  induction prev as [|x prev IH]; [constructor|].
  unfold remove_item. simpl. destruct (negb _).
  - apply sublist_skip, IH.
  - apply sublist_cons, IH.
Qed.

Lemma remove_item_absent (id : string) (prev : list Item) :
  (∀ item, item ∈ prev → itemId item ≠ id) → remove_item itemId id prev = prev.
Proof.
  induction prev as [|x prev IH]; intros Habsent; [reflexivity|].
  unfold remove_item. simpl.
  destruct (String.eqb_spec (itemId x) id) as [Heq|Hne]; simpl.
  - exfalso. apply (Habsent x); [left | exact Heq].
  - f_equal. apply IH. intros item Hin. apply Habsent. right. exact Hin.
Qed.

(** X13: After a delete has succeeded the list has no item with that id; the
    other items are all there, in their order; and a list that had no such
    item is as it was. *)
Theorem delete_removes_by_id (id : string) (v : value) (st : State Item) :
  let st' := handleDeleteItem_settle itemId id (Returned v) st in
  (∀ item, item ∈ items st' ↔ item ∈ items st ∧ itemId item ≠ id)
  ∧ items st' `sublist_of` items st
  ∧ ((∀ item, item ∈ items st → itemId item ≠ id) → items st' = items st).
Proof.
  simpl. split; [apply remove_item_elem|]. split; [apply remove_item_sublist|].
  apply remove_item_absent.
Qed.

(** X14: After an update has succeeded the list is as long as before, items
    with another id are where they were, and the ids are the same as
    before if the item that came back has the id that was edited. *)
Theorem update_replaces_by_id (editing updatedItem : Item) (st : State Item) :
  let st' := handleUpdateItem_settle itemId editing (Returned updatedItem) st in
  length (items st') = length (items st)
  ∧ (∀ i item, items st !! i = Some item → itemId item ≠ itemId editing →
               items st' !! i = Some item)
  ∧ (∀ i item, items st !! i = Some item → itemId item = itemId editing →
               items st' !! i = Some updatedItem)
  ∧ (itemId updatedItem = itemId editing →
     map itemId (items st') = map itemId (items st))
  ∧ editingItem st' = None.
Proof.
  simpl. unfold replace_item. split; [apply length_map|].
  split; [|split; [|split; [|reflexivity]]].
  - intros i item Hi Hne. change (map ?f ?l) with (f <$> l).
    rewrite list_lookup_fmap, Hi. simpl.
    destruct (String.eqb_spec (itemId item) (itemId editing)); [contradiction | reflexivity].
  - intros i item Hi Heq. change (map ?f ?l) with (f <$> l).
    rewrite list_lookup_fmap, Hi. simpl.
    rewrite Heq, String.eqb_refl. reflexivity.
  - intros Hid. rewrite map_map. apply map_ext. intros item.
    destruct (String.eqb_spec (itemId item) (itemId editing)); congruence.
Qed.

(** X15: Creating an item and then deleting it by its id gives the list back,
    provided no item already had that id. *)
Theorem create_then_delete (newItem : Item) (v : value) (st : State Item) :
  (∀ item, item ∈ items st → itemId item ≠ itemId newItem) →
  items (handleDeleteItem_settle itemId (itemId newItem) (Returned v)
           (handleCreateItem_settle (Returned newItem) st))
  = items st.
Proof.
  intros Hfresh. simpl. unfold append_item, remove_item.
  rewrite List.filter_app. simpl. rewrite String.eqb_refl. simpl. rewrite app_nil_r.
  apply remove_item_absent. exact Hfresh.
Qed.

Lemma size_list_to_set_le (l : list string) :
  (stdpp.base.size (list_to_set l : gset string) ≤ length l)%nat.
Proof.
  induction l as [|x l IH]; [rewrite list_to_set_nil, size_empty; lia|].
  rewrite list_to_set_cons, size_union_alt, size_singleton. simpl.
  pose proof (subseteq_size (list_to_set l ∖ {[x]}) (list_to_set l : gset string)
                (subseteq_difference_l _ _ _ (reflexivity _))).
  lia.
Qed.

(** X16: The category counter never exceeds the product counter, counts each
    product once when no two share a category, and does not grow when a
    product is deleted. *)
Theorem categories_count_bounds (id : string) (v : value) (st : State Item) :
  (categories_count category st ≤ total_products st)%nat
  ∧ (NoDup (map category (items st)) → categories_count category st = total_products st)
  ∧ (categories_count category (handleDeleteItem_settle itemId id (Returned v) st)
     ≤ categories_count category st)%nat.
Proof.
  unfold categories_count, total_products. split; [|split].
  - rewrite <- (length_map category). apply size_list_to_set_le.
  - intros Hnd. rewrite size_list_to_set by exact Hnd. apply length_map.
  - simpl. apply subseteq_size. intros c.
    rewrite !elem_of_list_to_set, !list_elem_of_In, !in_map_iff.
    intros (item & Hc & Hin). exists item. split; [exact Hc|].
    apply list_elem_of_In. apply list_elem_of_In, remove_item_elem in Hin. tauto.
Qed.

(** X17: Every failed call of the dashboard stores as its error the message
    of the reply when the reply has a truthy one, and else the fixed text
    of the handler; the stored value is truthy in every case, and the
    items are the ones that were there. *)
Theorem dashboard_failures_are_shown (t : Thrown) (st : State Item)
    (id : string) (editing : Item) :
  let stored (axios_text other_text : string) : value :=
    match t with
    | AxiosFailure err =>
        if js_truthy (response_message err) then response_message err
        else VStr axios_text
    | OtherFailure => VStr other_text
    end in
  let load := loadItems_settle (Threw t) st in
  let create := handleCreateItem_settle (Threw t) st in
  let update := handleUpdateItem_settle itemId editing (Threw t) st in
  let delete := handleDeleteItem_settle itemId id (Threw t) st in
  error load
  = stored "An error occurred" "Failed to load items. Please check if you are authenticated."
  ∧ error create = stored "Failed to create item" "Failed to create item"
  ∧ error update = stored "Failed to update item" "Failed to update item"
  ∧ error delete = stored "Failed to delete item" "Failed to delete item"
  ∧ Forall (fun st' => js_truthy (error st') = true ∧ items st' = items st)
      [load; create; update; delete].
Proof.
  assert (Hmsg : ∀ a b, a ≠ "" → b ≠ "" → js_truthy (failure_message a b t) = true).
  { intros a b Ha Hb. destruct t as [err|]; simpl.
    - unfold or_else. destruct (js_truthy (response_message err)) eqn:Hm; [exact Hm|].
      simpl. destruct (String.eqb_spec a ""); [contradiction | reflexivity].
    - destruct (String.eqb_spec b ""); [contradiction | reflexivity]. }
  cbv zeta. repeat split; try (destruct t; reflexivity).
  repeat constructor; apply Hmsg; discriminate.
Qed.

(** X18: The confirmation deletes the id that was asked for, unless it is
    empty, and once the delete has settled, either way, a second
    confirmation deletes nothing. *)
Theorem confirmation_deletes_once (id : string) (r : Awaited value) (st : State Item) :
  onConfirm (confirmDelete id st) = (if String.eqb id "" then None else Some id)
  ∧ onConfirm (handleDeleteItem_settle itemId id r (confirmDelete id st)) = None
  ∧ isOpen (deleteModal (handleDeleteItem_settle itemId id r (confirmDelete id st))) = false.
Proof.
  split; [reflexivity|]. destruct r as [a|t]; split; reflexivity.
Qed.

(** X19: A refresh announces itself before the list has come: the message
    and the loading flag are set at once and one timer is started. When
    the load then fails, the message is the announcement if no timer has
    fired in the meantime and empty if one has; the error is the failure's
    message; the items are the ones that were there, with loading off. *)
Theorem refresh_announces_before_loading (t : Thrown) (st : State Item) (fired : nat) :
  let st0 := handleRefresh st in
  let st' := loadItems_settle (Threw t) (Nat.iter fired clear_fires st0) in
  successMessage st0 = "Products refreshed! 🔄"%string
  ∧ loading st0 = true
  ∧ pending_clears st0 = 3000 :: pending_clears st
  ∧ successMessage st'
    = match fired with O => "Products refreshed! 🔄"%string | S _ => ""%string end
  ∧ error st'
    = failure_message "An error occurred"
        "Failed to load items. Please check if you are authenticated." t
  ∧ js_truthy (error st') = true
  ∧ items st' = items st
  ∧ loading st' = false.
Proof.
  intros st0 st'.
  assert (Hkeep : ∀ n, items (Nat.iter n clear_fires st0) = items st
                       ∧ successMessage (Nat.iter (S n) clear_fires st0) = ""%string).
  { induction n as [|n [IHi IHm]]; [split; reflexivity|].
    split.
    - change (items (clear_fires (Nat.iter n clear_fires st0)) = items st).
      unfold clear_fires at 1.
      destruct (pending_clears (Nat.iter n clear_fires st0)); exact IHi.
    - change (successMessage (clear_fires (Nat.iter (S n) clear_fires st0)) = ""%string).
      unfold clear_fires at 1.
      destruct (pending_clears (Nat.iter (S n) clear_fires st0));
        [exact IHm | reflexivity]. }
  split; [reflexivity|]. split; [reflexivity|]. split; [reflexivity|].
  split; [destruct fired as [|n]; [reflexivity | exact (proj2 (Hkeep n))]|].
  split; [reflexivity|]. split.
  - change (js_truthy (failure_message "An error occurred"
              "Failed to load items. Please check if you are authenticated." t) = true).
    destruct t as [err|]; simpl; [|reflexivity].
    unfold or_else. destruct (js_truthy (response_message err)) eqn:Hm; [exact Hm | reflexivity].
  - split; [|reflexivity]. exact (proj1 (Hkeep fired)).
Qed.

(** X20: [handleDeleteItem] end to end: one DELETE goes out; on a 2xx reply
    the items with that id are gone and the error is cleared; otherwise the
    items are untouched and an error is shown; the confirmation is closed
    in both cases. *)
Theorem handleDeleteItem_end_to_end (API_BASE_URL : string)
    (server : AxiosRequestConfig → Outcome) (id : string) (w : World) (st : State Item) :
  let w' := (handleDeleteItem itemId API_BASE_URL server id w st).1 in
  let st' := (handleDeleteItem itemId API_BASE_URL server id w st).2 in
  let req := request_interceptor w (api_config API_BASE_URL DELETE ("/items/" +:+ id) VUndefined) in
  sent w' = req :: sent w
  ∧ deleteModal st' = closed_modal
  ∧ match server req with
    | Reply r =>
        if validateStatus (res_status r)
        then items st' = remove_item itemId id (items st) ∧ error st' = VStr ""
        else items st' = items st ∧ js_truthy (error st') = true
    | NoReply => items st' = items st ∧ error st' = VStr "Failed to delete item"
    end.
Proof.
  intros w' st' req. unfold w', st', handleDeleteItem.
  pose proof (ServiceFacts.perform_run API_BASE_URL server (Operations.OpDelete id) w) as Hrun.
  pose proof (ServiceFacts.api_request_sent' API_BASE_URL server (Operations.OpDelete id) w)
    as Hsent.
  simpl in Hrun, Hsent. fold req in Hsent.
  rewrite (ServiceFacts.api_request_run server) in Hrun. fold req in Hrun.
  destruct (deleteItem API_BASE_URL server id w) as [w1 out]. simpl in Hsent.
  split; [exact Hsent|].
  destruct (server req) as [r|].
  - destruct (validateStatus (res_status r)).
    + injection Hrun as -> ->. simpl. auto.
    + injection Hrun as -> ->. simpl. split; [reflexivity|]. split; [reflexivity|].
      unfold or_else.
      destruct (js_truthy (response_message _)) eqn:Hm; [exact Hm | reflexivity].
  - injection Hrun as -> ->. simpl. auto.
Qed.
End Lists.

Lemma create_then_delete_witness :
  (∀ item, item ∈ items demo_dashboard → fst item ≠ fst ("d", "games")%string)
  ∧ items (handleDeleteItem_settle fst "d" (Returned VUndefined)
             (handleCreateItem_settle (Returned ("d", "games")%string) demo_dashboard))
    = demo_items.
Proof.
  assert (Hfresh : ∀ item : string * string,
            item ∈ items demo_dashboard → fst item ≠ fst ("d", "games")%string).
  { intros item Hin. change (item ∈ demo_items) in Hin. unfold demo_items in Hin.
    rewrite !elem_of_cons, elem_of_nil in Hin.
    destruct Hin as [-> | [-> | [-> | []]]]; discriminate. }
  split; [exact Hfresh|].
  apply (create_then_delete fst ("d", "games")%string VUndefined demo_dashboard Hfresh).
Defined.

Lemma delete_removes_by_id_witness :
  (∀ item : string * string, item ∈ items demo_dashboard → fst item ≠ "z")
  ∧ items (handleDeleteItem_settle fst "z" (Returned VUndefined) demo_dashboard)
    = items demo_dashboard.
Proof.
  assert (Habsent : ∀ item : string * string,
            item ∈ items demo_dashboard → fst item ≠ "z").
  { intros item Hin. change (item ∈ demo_items) in Hin. unfold demo_items in Hin.
    rewrite !elem_of_cons, elem_of_nil in Hin.
    destruct Hin as [-> | [-> | [-> | []]]]; discriminate. }
  split; [exact Habsent|].
  apply (proj2 (proj2 (delete_removes_by_id fst "z" VUndefined demo_dashboard)) Habsent).
Defined.

Lemma update_replaces_by_id_witness :
  fst ("a", "garden")%string = fst ("a", "tools")%string
  ∧ map fst (items (handleUpdateItem_settle fst ("a", "tools")%string
                      (Returned ("a", "garden")%string) demo_dashboard))
    = map fst (items demo_dashboard).
Proof.
  split; [reflexivity|].
  apply (update_replaces_by_id fst ("a", "tools")%string ("a", "garden")%string
           demo_dashboard). reflexivity.
Defined.

Lemma categories_count_bounds_witness :
  NoDup (map snd (items (handleDeleteItem_settle fst "c" (Returned VUndefined) demo_dashboard)))
  ∧ categories_count snd (handleDeleteItem_settle fst "c" (Returned VUndefined) demo_dashboard)
    = 2%nat.
Proof.
  assert (Hnd : NoDup (map snd (items (handleDeleteItem_settle fst "c"
                                         (Returned VUndefined) demo_dashboard)))).
  { simpl. repeat constructor; rewrite ?elem_of_cons, ?elem_of_nil; intuition discriminate. }
  split; [exact Hnd|].
  rewrite (proj1 (proj2 (categories_count_bounds fst snd "c" VUndefined
                           (handleDeleteItem_settle fst "c" (Returned VUndefined)
                              demo_dashboard))) Hnd).
  reflexivity.
Defined.

End DashboardFacts.

(** ** The two forms *)

Module FormsFacts.
Import Failures.

(** X21: The sign-up form calls [signUp] exactly when the password is there,
    equals its confirmation and has eight characters or more; the call
    carries that password and the e-mail and name of the form. *)
Theorem signUp_only_confirmed (st st' : SignUpForm.State)
    (email name : option string) (p : string) :
  SignUpForm.handleSubmit_start st = SignUpForm.Calls email p name st'
  ↔ SignUpForm.formData st !! "password" = Some p
    ∧ SignUpForm.formData st !! "confirmPassword" = Some p
    ∧ (8 ≤ String.length p)%nat
    ∧ email = SignUpForm.formData st !! "email"
    ∧ name = SignUpForm.formData st !! "name"
    ∧ st' = SignUpForm.setError (VStr "") (SignUpForm.setIsLoading true st).
Proof.
  unfold SignUpForm.handleSubmit_start. split.
  - case_bool_decide as Hsame; simpl; [|discriminate].
    destruct (SignUpForm.formData st !! "password") as [q|] eqn:Hq; [|discriminate].
    destruct (Nat.ltb_spec (String.length q) 8); [discriminate|].
    intros [= <- <- <- <-]. repeat split; auto.
  - intros (Hp & Hc & Hlen & -> & -> & ->). rewrite Hp, Hc.
    rewrite bool_decide_eq_true_2 by reflexivity. simpl.
    destruct (Nat.ltb_spec (String.length p) 8); [lia | reflexivity].
Qed.

(** X22: The fields the form starts with stay in [formData] whatever is typed,
    so submitting never stops on a missing password. *)
Theorem signUp_fields_stay (changes : list (string * string)) :
  let st := foldl (fun st c => SignUpForm.handleChange c.1 c.2 st) SignUpForm.initial changes in
  (∀ field, field ∈ ["email"; "password"; "name"; "confirmPassword"] →
            is_Some (SignUpForm.formData st !! field))
  ∧ SignUpForm.handleSubmit_start st ≠ SignUpForm.TypeError.
Proof.
  induction changes as [|[n v] changes IH] using rev_ind; intros st.
  - repeat split; try discriminate.
    intros field Hf. rewrite !elem_of_cons, elem_of_nil in Hf.
    destruct Hf as [-> | [-> | [-> | [-> | []]]]]; eexists; reflexivity.
  - unfold st. rewrite foldl_app. simpl.
    destruct IH as (Hfields & _).
    set (st0 := foldl _ SignUpForm.initial changes) in *.
    assert (Hfields' : ∀ field,
              field ∈ ["email"; "password"; "name"; "confirmPassword"] →
              is_Some (SignUpForm.formData (SignUpForm.handleChange n v st0) !! field)).
    { intros field Hf. simpl. apply lookup_insert_is_Some'. right. apply Hfields, Hf. }
    split; [exact Hfields'|].
    unfold SignUpForm.handleSubmit_start.
    destruct (Hfields' "password") as [q Hq];
      [rewrite !elem_of_cons; tauto|].
    rewrite Hq. destruct (negb _); [discriminate|].
    destruct (_ <? _)%nat; discriminate.
Qed.

(** X23: When no reply arrives, neither form has anything to show afterwards:
    the error is [undefined], and the form is no longer loading. *)
Theorem forms_silent_without_reply (err : AxiosError)
    (up : SignUpForm.State) (inn : SignInForm.State) :
  err_response err = None →
  SignUpForm.error (SignUpForm.handleSubmit_settle (Threw (AxiosFailure err)) up) = VUndefined
  ∧ SignUpForm.isLoading (SignUpForm.handleSubmit_settle (Threw (AxiosFailure err)) up) = false
  ∧ SignInForm.error (SignInForm.handleSubmit_settle (Threw (AxiosFailure err)) inn) = VUndefined
  ∧ SignInForm.isLoading (SignInForm.handleSubmit_settle (Threw (AxiosFailure err)) inn) = false.
Proof.
  intros Hnone. simpl. unfold response_message, response_data. rewrite Hnone.
  repeat split.
Qed.


Lemma forms_silent_without_reply_witness :
  let err := {| err_config := api_config "https://api" POST "/auth/signin" VNull;
                err_response := None |} in
  err_response err = None
  ∧ SignInForm.error
      (SignInForm.handleSubmit_settle (Threw (AxiosFailure err))
         {| SignInForm.email := "a@b.c"; SignInForm.password := "secret";
            SignInForm.error := VStr ""; SignInForm.isLoading := true |})
    = VUndefined.
Proof.
  intros err. split; [reflexivity|].
  apply (forms_silent_without_reply err SignUpForm.initial _ eq_refl).
Defined.

Lemma signUp_only_confirmed_witness :
  let st := SignUpForm.handleChange "confirmPassword" "longenough"
              (SignUpForm.handleChange "password" "longenough" SignUpForm.initial) in
  SignUpForm.handleSubmit_start st
  = SignUpForm.Calls (Some "") "longenough" (Some "")
      (SignUpForm.setError (VStr "") (SignUpForm.setIsLoading true st))
  ∧ (8 ≤ String.length "longenough")%nat.
Proof.
  intros st. split; [reflexivity|].
  apply (proj1 (signUp_only_confirmed st _ (Some "") (Some "") "longenough") eq_refl).
Defined.

Lemma signUp_fields_stay_witness :
  is_Some (SignUpForm.formData
             (foldl (fun st c => SignUpForm.handleChange c.1 c.2 st) SignUpForm.initial
                [("password", "x"); ("nickname", "y")]) !! "confirmPassword").
Proof.
  apply (proj1 (signUp_fields_stay [("password", "x"); ("nickname", "y")])).
  rewrite !elem_of_cons. tauto.
Defined.

End FormsFacts.
